(** * YARP::Pack.parse — the pack/unpack format-string decode driver

    Shallow embedding of [pack_parse] and of the converters it calls
    (ext/yarp/extension.c), with the single-step directive parser
    [yp_pack_parse] taken as a parameter of the driver: its definition
    (pack.c) and its declarations (pack.h) are not part of the sources. *)

From Stdlib Require Import ZArith List String Bool Lia.
From Stdlib.Strings Require Import Byte.
Import ListNotations.
Local Open Scope string_scope.
Local Open Scope list_scope.
Local Open Scope Z_scope.

(** ** Enumerations named by the source

    The constants are the ones extension.c mentions; their numeric values
    live in pack.h and are never used by the driver. *)

Inductive yp_pack_version : Type := YP_PACK_VERSION_3_2_0.

Inductive yp_pack_variant : Type :=
| YP_PACK_VARIANT_PACK
| YP_PACK_VARIANT_UNPACK.

Inductive yp_pack_type : Type :=
| YP_PACK_SPACE
| YP_PACK_COMMENT
| YP_PACK_INTEGER
| YP_PACK_UTF8
| YP_PACK_BER
| YP_PACK_FLOAT
| YP_PACK_STRING_SPACE_PADDED
| YP_PACK_STRING_NULL_PADDED
| YP_PACK_STRING_NULL_TERMINATED
| YP_PACK_STRING_MSB
| YP_PACK_STRING_LSB
| YP_PACK_STRING_HEX_HIGH
| YP_PACK_STRING_HEX_LOW
| YP_PACK_STRING_UU
| YP_PACK_STRING_MIME
| YP_PACK_STRING_BASE64
| YP_PACK_STRING_FIXED
| YP_PACK_STRING_POINTER
| YP_PACK_MOVE
| YP_PACK_BACK
| YP_PACK_NULL
| YP_PACK_END.

Inductive yp_pack_signed : Type :=
| YP_PACK_UNSIGNED
| YP_PACK_SIGNED
| YP_PACK_SIGNED_NA.

Inductive yp_pack_endian : Type :=
| YP_PACK_AGNOSTIC_ENDIAN
| YP_PACK_LITTLE_ENDIAN
| YP_PACK_BIG_ENDIAN
| YP_PACK_NATIVE_ENDIAN
| YP_PACK_ENDIAN_NA.

Inductive yp_pack_size : Type :=
| YP_PACK_SIZE_SHORT
| YP_PACK_SIZE_INT
| YP_PACK_SIZE_LONG
| YP_PACK_SIZE_LONG_LONG
| YP_PACK_SIZE_8
| YP_PACK_SIZE_16
| YP_PACK_SIZE_32
| YP_PACK_SIZE_64
| YP_PACK_SIZE_P
| YP_PACK_SIZE_NA.

Inductive yp_pack_length_type : Type :=
| YP_PACK_LENGTH_FIXED
| YP_PACK_LENGTH_MAX
| YP_PACK_LENGTH_RELATIVE
| YP_PACK_LENGTH_NA.

Inductive yp_pack_encoding : Type :=
| YP_PACK_ENCODING_START
| YP_PACK_ENCODING_ASCII_8BIT
| YP_PACK_ENCODING_US_ASCII
| YP_PACK_ENCODING_UTF_8.

(** The result code of one resolver call.  [pack_parse] switches on six
    named codes and has a [default] arm; [YP_PACK_RESULT_OTHER] stands for
    any value that reaches that arm. *)
Inductive yp_pack_result : Type :=
| YP_PACK_OK
| YP_PACK_ERROR_UNSUPPORTED_DIRECTIVE
| YP_PACK_ERROR_UNKNOWN_DIRECTIVE
| YP_PACK_ERROR_LENGTH_TOO_BIG
| YP_PACK_ERROR_BANG_NOT_ALLOWED
| YP_PACK_ERROR_DOUBLE_ENDIAN
| YP_PACK_RESULT_OTHER (code : Z).

(** ** Ruby values the driver handles *)

(** Encoding objects, named by the index function that produces them. *)
Inductive rb_encoding : Type :=
| rb_ascii8bit
| rb_usascii
| rb_utf8.

Inductive VALUE : Type :=
| Qnil
| Symbol (name : string)
| Integer (n : Z)
| RString (bytes : list byte)
| Encoding (enc : rb_encoding).

Definition ID2SYM_rb_intern (name : string) : VALUE := Symbol name.

(** [==] on two VALUEs.  Symbols are interned, so two symbols are
    identical when their names are; values of different kinds are never
    identical, and a String is a heap object of its own, identical to no
    other argument. *)
Definition VALUE_eqb (a b : VALUE) : bool :=
  match a, b with
  | Qnil, Qnil => true
  | Symbol x, Symbol y => String.eqb x y
  | Integer x, Integer y => Z.eqb x y
  | Encoding x, Encoding y =>
      match x, y with
      | rb_ascii8bit, rb_ascii8bit | rb_usascii, rb_usascii | rb_utf8, rb_utf8 => true
      | _, _ => false
      end
  | _, _ => false
  end.

(** Set once by [Init_yarp]. *)
Definition v3_2_0_symbol : VALUE := ID2SYM_rb_intern "v3_2_0".
Definition pack_symbol : VALUE := ID2SYM_rb_intern "pack".
Definition unpack_symbol : VALUE := ID2SYM_rb_intern "unpack".

(** An instance of YARP::Pack::Directive: the nine constructor arguments. *)
Record Directive : Type := mkDirective {
  d_version : VALUE;
  d_variant : VALUE;
  d_source : list byte;
  d_type : VALUE;
  d_signed : VALUE;
  d_endian : VALUE;
  d_size : VALUE;
  d_length_type : VALUE;
  d_length : VALUE
}.

(** An instance of YARP::Pack::Format: the two constructor arguments. *)
Record Format : Type := mkFormat {
  f_directives : list Directive;
  f_encoding : VALUE
}.

(** ** Control outcomes of a C function of the extension *)

Inductive exception_class : Type :=
| rb_eArgError
| rb_eRangeError
| rb_eTypeError.

Inductive outcome (A : Type) : Type :=
| Return (a : A)
| Raise (cls : exception_class) (msg : string)
| Bug (msg : string)
| OutOfBounds.

Arguments Return {A} a.
Arguments Raise {A} cls msg.
Arguments Bug {A} msg.
Arguments OutOfBounds {A}.

(** ** The enum-to-symbol converters

    Each converter is a [switch] over the constants of its enum with a
    [default] arm that returns [nil].  The enums of signedness,
    endianness, size and length type are embedded with the named constants
    only, so [pack_signed_to_symbol], [pack_endian_to_symbol],
    [pack_size_to_symbol] and [pack_length_type_to_symbol] are the
    converters on the values their [switch] names: what they return on any
    other value ([nil], through [default]) is outside the embedding, and
    no statement below is about it. *)

Definition pack_type_to_symbol (type : yp_pack_type) : VALUE :=
  match type with
  | YP_PACK_SPACE => ID2SYM_rb_intern "SPACE"
  | YP_PACK_COMMENT => ID2SYM_rb_intern "COMMENT"
  | YP_PACK_INTEGER => ID2SYM_rb_intern "INTEGER"
  | YP_PACK_UTF8 => ID2SYM_rb_intern "UTF8"
  | YP_PACK_BER => ID2SYM_rb_intern "BER"
  | YP_PACK_FLOAT => ID2SYM_rb_intern "FLOAT"
  | YP_PACK_STRING_SPACE_PADDED => ID2SYM_rb_intern "STRING_SPACE_PADDED"
  | YP_PACK_STRING_NULL_PADDED => ID2SYM_rb_intern "STRING_NULL_PADDED"
  | YP_PACK_STRING_NULL_TERMINATED => ID2SYM_rb_intern "STRING_NULL_TERMINATED"
  | YP_PACK_STRING_MSB => ID2SYM_rb_intern "STRING_MSB"
  | YP_PACK_STRING_LSB => ID2SYM_rb_intern "STRING_LSB"
  | YP_PACK_STRING_HEX_HIGH => ID2SYM_rb_intern "STRING_HEX_HIGH"
  | YP_PACK_STRING_HEX_LOW => ID2SYM_rb_intern "STRING_HEX_LOW"
  | YP_PACK_STRING_UU => ID2SYM_rb_intern "STRING_UU"
  | YP_PACK_STRING_MIME => ID2SYM_rb_intern "STRING_MIME"
  | YP_PACK_STRING_BASE64 => ID2SYM_rb_intern "STRING_BASE64"
  | YP_PACK_STRING_FIXED => ID2SYM_rb_intern "STRING_FIXED"
  | YP_PACK_STRING_POINTER => ID2SYM_rb_intern "STRING_POINTER"
  | YP_PACK_MOVE => ID2SYM_rb_intern "MOVE"
  | YP_PACK_BACK => ID2SYM_rb_intern "BACK"
  | YP_PACK_NULL => ID2SYM_rb_intern "NULL"
  | _ => Qnil
  end.

Definition pack_signed_to_symbol (signed_type : yp_pack_signed) : VALUE :=
  match signed_type with
  | YP_PACK_UNSIGNED => ID2SYM_rb_intern "UNSIGNED"
  | YP_PACK_SIGNED => ID2SYM_rb_intern "SIGNED"
  | YP_PACK_SIGNED_NA => ID2SYM_rb_intern "SIGNED_NA"
  end.

Definition pack_endian_to_symbol (endian : yp_pack_endian) : VALUE :=
  match endian with
  | YP_PACK_AGNOSTIC_ENDIAN => ID2SYM_rb_intern "AGNOSTIC_ENDIAN"
  | YP_PACK_LITTLE_ENDIAN => ID2SYM_rb_intern "LITTLE_ENDIAN"
  | YP_PACK_BIG_ENDIAN => ID2SYM_rb_intern "BIG_ENDIAN"
  | YP_PACK_NATIVE_ENDIAN => ID2SYM_rb_intern "NATIVE_ENDIAN"
  | YP_PACK_ENDIAN_NA => ID2SYM_rb_intern "ENDIAN_NA"
  end.

Definition pack_size_to_symbol (size : yp_pack_size) : VALUE :=
  match size with
  | YP_PACK_SIZE_SHORT => ID2SYM_rb_intern "SIZE_SHORT"
  | YP_PACK_SIZE_INT => ID2SYM_rb_intern "SIZE_INT"
  | YP_PACK_SIZE_LONG => ID2SYM_rb_intern "SIZE_LONG"
  | YP_PACK_SIZE_LONG_LONG => ID2SYM_rb_intern "SIZE_LONG_LONG"
  | YP_PACK_SIZE_8 => ID2SYM_rb_intern "SIZE_8"
  | YP_PACK_SIZE_16 => ID2SYM_rb_intern "SIZE_16"
  | YP_PACK_SIZE_32 => ID2SYM_rb_intern "SIZE_32"
  | YP_PACK_SIZE_64 => ID2SYM_rb_intern "SIZE_64"
  | YP_PACK_SIZE_P => ID2SYM_rb_intern "SIZE_P"
  | YP_PACK_SIZE_NA => ID2SYM_rb_intern "SIZE_NA"
  end.

Definition pack_length_type_to_symbol (length_type : yp_pack_length_type) : VALUE :=
  match length_type with
  | YP_PACK_LENGTH_FIXED => ID2SYM_rb_intern "LENGTH_FIXED"
  | YP_PACK_LENGTH_MAX => ID2SYM_rb_intern "LENGTH_MAX"
  | YP_PACK_LENGTH_RELATIVE => ID2SYM_rb_intern "LENGTH_RELATIVE"
  | YP_PACK_LENGTH_NA => ID2SYM_rb_intern "LENGTH_NA"
  end.

Definition pack_encoding_to_ruby (encoding : yp_pack_encoding) : VALUE :=
  match encoding with
  | YP_PACK_ENCODING_ASCII_8BIT => Encoding rb_ascii8bit
  | YP_PACK_ENCODING_US_ASCII => Encoding rb_usascii
  | YP_PACK_ENCODING_UTF_8 => Encoding rb_utf8
  | _ => Qnil
  end.

(** ** Ruby C-API helpers used by the driver *)

(** [long] is 64 bits wide (LP64, the data model of the POSIX platforms the
    extension's [mmap]/[fstat] code builds on). *)
Definition LONG_BIT : Z := 64.

(** Conversion of an integer to [long]: reduction modulo [2^LONG_BIT] into
    the signed range. *)
Definition to_long (x : Z) : Z :=
  let m := x mod 2 ^ LONG_BIT in
  if m <? 2 ^ (LONG_BIT - 1) then m else m - 2 ^ LONG_BIT.

(** [LONG2NUM] takes a [long] argument and builds the Ruby Integer of that
    value; a [uint64_t] argument is first converted to [long]. *)
Definition LONG2NUM (v : Z) : VALUE := Integer (to_long v).

Definition UINT64_MAX : Z := 2 ^ 64 - 1.

(** [StringValue]: a String is taken as it is; the other values the model
    has do not convert implicitly. *)
Definition StringValue (v : VALUE) : outcome (list byte) :=
  match v with
  | RString bytes => Return bytes
  | Qnil => Raise rb_eTypeError "no implicit conversion of nil into String"
  | Symbol _ => Raise rb_eTypeError "no implicit conversion of Symbol into String"
  | Integer _ => Raise rb_eTypeError "no implicit conversion of Integer into String"
  | Encoding _ => Raise rb_eTypeError "no implicit conversion of Encoding into String"
  end.

Definition RSTRING_LEN (bytes : list byte) : Z := Z.of_nat (List.length bytes).

(** [rb_usascii_str_new(ptr, len)] with [ptr = buffer + start]: copies [len]
    bytes; a negative [len] raises.  The call of line 432 checks no bound:
    a range that leaves the buffer is a read outside the string, whose
    bytes the C semantics does not fix.  [OutOfBounds] marks such a run;
    it is no value the caller could observe, and a statement about
    returned Formats says nothing of the runs that end there unless it
    assumes a parser that keeps the cursor inside the buffer. *)
Definition rb_usascii_str_new (buffer : list byte) (start len : Z) : outcome (list byte) :=
  if len <? 0 then Raise rb_eArgError "negative string size (or size too big)"
  else if (start <? 0) || (RSTRING_LEN buffer <? start + len) then OutOfBounds
  else Return (firstn (Z.to_nat len) (skipn (Z.to_nat start) buffer)).

(** ** The single-step parser as the driver sees it *)

(** What one call of [yp_pack_parse] leaves behind: its return code and the
    values behind its out-pointers.  [out_format] is the cursor [*format]
    as an offset from the start of the buffer. *)
Record yp_pack_out : Type := mkOut {
  parse_result : yp_pack_result;
  out_format : Z;
  out_type : yp_pack_type;
  out_signed_type : yp_pack_signed;
  out_endian : yp_pack_endian;
  out_size : yp_pack_size;
  out_length_type : yp_pack_length_type;
  out_length : Z;
  out_encoding : yp_pack_encoding
}.

(** [yp_pack_parse(version, variant, &format, format_end, ..., &encoding)]:
    the buffer (whose length fixes [format_end]), the cursor and the running
    encoding go in. *)
Definition yp_pack_parse_t : Type :=
  yp_pack_version -> yp_pack_variant -> list byte -> Z -> yp_pack_encoding -> yp_pack_out.

(** ** The driver *)

(** The locals of [pack_parse] that live across loop iterations. *)
Record locals : Type := mkLocals {
  format : Z;
  encoding : yp_pack_encoding;
  directives_array : list Directive
}.

(** The driver is either in its loop or has left the function. *)
Inductive machine : Type :=
| Scanning (st : locals)
| Done (o : outcome Format).

Definition rb_ary_push {A : Type} (ary : list A) (x : A) : list A := ary ++ [x].

Section Driver.

Variable yp_pack_parse : yp_pack_parse_t.

Variables (version : yp_pack_version) (variant : yp_pack_variant).
Variables (version_symbol variant_symbol : VALUE).
Variable buffer : list byte.

(** Lines 442-445: the value returned after the loop. *)
Definition pack_parse_return (directives : list Directive) (enc : yp_pack_encoding)
  : outcome Format :=
  Return (mkFormat directives (pack_encoding_to_ruby enc)).

(** Lines 393-440: the loop test and one run of the loop body. *)
Definition pack_parse_step (st : locals) : machine :=
  if format st <? RSTRING_LEN buffer then
    let directive_start := format st in
    let r := yp_pack_parse version variant buffer (format st) (encoding st) in
    let directive_end := out_format r in
    match parse_result r with
    | YP_PACK_OK =>
        match out_type r with
        | YP_PACK_END => Done (pack_parse_return (directives_array st) (out_encoding r))
        | type =>
            match rb_usascii_str_new buffer directive_start (directive_end - directive_start) with
            | Return source =>
                let directive :=
                  mkDirective version_symbol variant_symbol source
                    (pack_type_to_symbol type)
                    (pack_signed_to_symbol (out_signed_type r))
                    (pack_endian_to_symbol (out_endian r))
                    (pack_size_to_symbol (out_size r))
                    (pack_length_type_to_symbol (out_length_type r))
                    (LONG2NUM (out_length r mod 2 ^ 64)) in
                Scanning (mkLocals directive_end (out_encoding r)
                            (rb_ary_push (directives_array st) directive))
            | Raise cls msg => Done (Raise cls msg)
            | Bug msg => Done (Bug msg)
            | OutOfBounds => Done OutOfBounds
            end
        end
    | YP_PACK_ERROR_UNSUPPORTED_DIRECTIVE => Done (Raise rb_eArgError "unsupported directive")
    | YP_PACK_ERROR_UNKNOWN_DIRECTIVE => Done (Raise rb_eArgError "unsupported directive")
    | YP_PACK_ERROR_LENGTH_TOO_BIG => Done (Raise rb_eRangeError "pack length too big")
    | YP_PACK_ERROR_BANG_NOT_ALLOWED => Done (Raise rb_eRangeError "bang not allowed")
    | YP_PACK_ERROR_DOUBLE_ENDIAN => Done (Raise rb_eRangeError "double endian")
    | YP_PACK_RESULT_OTHER _ => Done (Bug "parse result")
    end
  else Done (pack_parse_return (directives_array st) (encoding st)).

(** The [while] loop, iterated at most [fuel] times; [None] when the
    loop is still running after that. *)
Fixpoint pack_parse_loop (fuel : nat) (st : locals) : option (outcome Format) :=
  match pack_parse_step st with
  | Done o => Some o
  | Scanning st' =>
      match fuel with
      | O => None
      | S fuel' => pack_parse_loop fuel' st'
      end
  end.

(** The locals after [n] complete runs of the loop body, when the
    loop runs that long. *)
Fixpoint pack_parse_iterate (n : nat) (st : locals) : option locals :=
  match n with
  | O => Some st
  | S n' =>
      match pack_parse_step st with
      | Scanning st' => pack_parse_iterate n' st'
      | Done _ => None
      end
  end.

End Driver.

(** Lines 376-383: the variant a symbol selects, [None] where the source
    raises. *)
Definition variant_of (variant_symbol : VALUE) : option yp_pack_variant :=
  if VALUE_eqb variant_symbol pack_symbol then Some YP_PACK_VARIANT_PACK
  else if VALUE_eqb variant_symbol unpack_symbol then Some YP_PACK_VARIANT_UNPACK
  else None.

(** The locals on entry to the loop (lines 387-391). *)
Definition entry : locals := mkLocals 0 YP_PACK_ENCODING_START [].

(** Lines 367-446.  The unused [self] is left out. *)
Definition pack_parse (yp_pack_parse : yp_pack_parse_t) (fuel : nat)
    (version_symbol variant_symbol format_string : VALUE) : option (outcome Format) :=
  if VALUE_eqb version_symbol v3_2_0_symbol then
    let version := YP_PACK_VERSION_3_2_0 in
    match variant_of variant_symbol with
    | None => Some (Raise rb_eArgError "invalid variant")
    | Some variant =>
        match StringValue format_string with
        | Return buffer =>
            pack_parse_loop yp_pack_parse version variant version_symbol variant_symbol
              buffer fuel entry
        | Raise cls msg => Some (Raise cls msg)
        | Bug msg => Some (Bug msg)
        | OutOfBounds => Some OutOfBounds
        end
    end
  else Some (Raise rb_eArgError "invalid version").

(** ** The single-step parser, reconstructed *)

Module SpecResolver.

(** Modelled from the spec: one row of the per-letter directive table
    (pack.c, absent from the sources; spec 4.2 "a version/variant-specific
    table giving its base type, default signedness, default endianness,
    default size, and whether it accepts the !, count, wildcard, and
    endianness modifiers at all"), with the default length of the row and
    the size that [!] selects where [!] is accepted. *)
Record letter_entry : Type := mkEntry {
  le_type : yp_pack_type;
  le_signed : yp_pack_signed;
  le_endian : yp_pack_endian;
  le_size : yp_pack_size;
  le_length_type : yp_pack_length_type;
  le_length : Z;
  le_pack : bool;
  le_unpack : bool;
  le_bang : option yp_pack_size;
  le_count : bool;
  le_wildcard : bool;
  le_endian_modifier : bool
}.

Definition grammar_table : Type := yp_pack_version -> byte -> option letter_entry.

Definition is_blank (b : byte) : bool :=
  match b with
  | x20 | x09 | x0a => true
  | _ => false
  end.

Definition digit_of_byte (b : byte) : option Z :=
  let n := Z.of_N (Byte.to_N b) in
  if (48 <=? n) && (n <=? 57) then Some (n - 48) else None.

(** Modelled from the spec: 4.1, "a run of ASCII space/tab/newline
    characters is scanned as one Space pseudo-directive span". *)
Fixpoint blank_run (bytes : list byte) : Z :=
  match bytes with
  | b :: rest => if is_blank b then 1 + blank_run rest else 0
  | [] => 0
  end.

(** Modelled from the spec: 4.1, a comment "extends to (but excludes) the
    next newline or end of input". *)
Fixpoint comment_run (bytes : list byte) : Z :=
  match bytes with
  | x0a :: _ => 0
  | _ :: rest => 1 + comment_run rest
  | [] => 0
  end.

(** The fields a letter's modifiers act on. *)
Record resolving : Type := mkResolving {
  rs_consumed : Z;
  rs_endian : yp_pack_endian;
  rs_endian_given : bool;
  rs_size : yp_pack_size;
  rs_length_type : yp_pack_length_type;
  rs_length : Z;
  rs_in_digits : bool
}.

Definition bump (rs : resolving) : Z := rs_consumed rs + 1.

(** Modelled from the spec: 4.2, endianness resolution for [<] and [>]. *)
Definition apply_endian (e : letter_entry) (wanted : yp_pack_endian) (rs : resolving)
  : yp_pack_result * resolving :=
  if le_endian_modifier e then
    if rs_endian_given rs then (YP_PACK_ERROR_DOUBLE_ENDIAN, rs)
    else (YP_PACK_OK,
          mkResolving (bump rs) wanted true (rs_size rs) (rs_length_type rs)
            (rs_length rs) false)
  else
    match le_endian e, wanted with
    | YP_PACK_LITTLE_ENDIAN, YP_PACK_LITTLE_ENDIAN
    | YP_PACK_BIG_ENDIAN, YP_PACK_BIG_ENDIAN =>
        (YP_PACK_OK,
         mkResolving (bump rs) (rs_endian rs) (rs_endian_given rs) (rs_size rs)
           (rs_length_type rs) (rs_length rs) false)
    | _, _ => (YP_PACK_ERROR_DOUBLE_ENDIAN, rs)
    end.

(** Modelled from the spec: 4.1 and 4.2, the modifiers that follow a
    letter: digits, [*], [!], [<] and [>]; the first byte that is none of
    these, or that the letter does not accept, ends the span. *)
Fixpoint modifiers (e : letter_entry) (bytes : list byte) (rs : resolving)
  : yp_pack_result * resolving :=
  match bytes with
  | [] => (YP_PACK_OK, rs)
  | b :: rest =>
      match digit_of_byte b with
      | Some d =>
          if le_count e then
            let n := if rs_in_digits rs then rs_length rs * 10 + d else d in
            if UINT64_MAX <? n then (YP_PACK_ERROR_LENGTH_TOO_BIG, rs)
            else modifiers e rest
                   (mkResolving (bump rs) (rs_endian rs) (rs_endian_given rs) (rs_size rs)
                      YP_PACK_LENGTH_FIXED n true)
          else (YP_PACK_OK, rs)
      | None =>
          match b with
          | x2a =>
              if le_wildcard e then
                modifiers e rest
                  (mkResolving (bump rs) (rs_endian rs) (rs_endian_given rs) (rs_size rs)
                     YP_PACK_LENGTH_MAX (rs_length rs) false)
              else (YP_PACK_OK, rs)
          | x21 =>
              match le_bang e with
              | Some native =>
                  modifiers e rest
                    (mkResolving (bump rs) (rs_endian rs) (rs_endian_given rs) native
                       (rs_length_type rs) (rs_length rs) false)
              | None => (YP_PACK_ERROR_BANG_NOT_ALLOWED, rs)
              end
          | x3c =>
              match apply_endian e YP_PACK_LITTLE_ENDIAN rs with
              | (YP_PACK_OK, rs') => modifiers e rest rs'
              | failed => failed
              end
          | x3e =>
              match apply_endian e YP_PACK_BIG_ENDIAN rs with
              | (YP_PACK_OK, rs') => modifiers e rest rs'
              | failed => failed
              end
          | _ => (YP_PACK_OK, rs)
          end
      end
  end.

(** Modelled from the spec: 4.3, the Encoding Threader: UTF-8 text
    directives force UTF-8, BER integers force ASCII-8BIT, every other
    type leaves the running encoding as it is. *)
Definition thread_encoding (enc : yp_pack_encoding) (type : yp_pack_type)
  : yp_pack_encoding :=
  match type with
  | YP_PACK_UTF8 => YP_PACK_ENCODING_UTF_8
  | YP_PACK_BER => YP_PACK_ENCODING_ASCII_8BIT
  | _ => enc
  end.

Definition pseudo (pos : Z) (type : yp_pack_type) (enc : yp_pack_encoding) : yp_pack_out :=
  mkOut YP_PACK_OK pos type YP_PACK_SIGNED_NA YP_PACK_ENDIAN_NA YP_PACK_SIZE_NA
    YP_PACK_LENGTH_NA 0 enc.

Definition failed (code : yp_pack_result) (pos : Z) (enc : yp_pack_encoding) : yp_pack_out :=
  mkOut code pos YP_PACK_END YP_PACK_SIGNED_NA YP_PACK_ENDIAN_NA YP_PACK_SIZE_NA
    YP_PACK_LENGTH_NA 0 enc.

Definition valid_for (variant : yp_pack_variant) (e : letter_entry) : bool :=
  match variant with
  | YP_PACK_VARIANT_PACK => le_pack e
  | YP_PACK_VARIANT_UNPACK => le_unpack e
  end.

(** Modelled from the spec: 4.2, the Resolver on a span that starts
    with a letter: table lookup, validity for the variant, modifiers. *)
Definition resolve_letter (table : grammar_table) (version : yp_pack_version)
    (variant : yp_pack_variant) (pos : Z) (letter : byte) (rest : list byte)
    (enc : yp_pack_encoding) : yp_pack_out :=
  match table version letter with
  | None => failed YP_PACK_ERROR_UNKNOWN_DIRECTIVE (pos + 1) enc
  | Some e =>
      if valid_for variant e then
        match modifiers e rest
                (mkResolving 1 (le_endian e) false (le_size e)
                   (le_length_type e) (le_length e) false) with
        | (YP_PACK_OK, rs) =>
            mkOut YP_PACK_OK (pos + rs_consumed rs) (le_type e) (le_signed e)
              (rs_endian rs) (rs_size rs) (rs_length_type rs) (rs_length rs)
              (thread_encoding enc (le_type e))
        | (code, rs) => failed code (pos + rs_consumed rs) enc
        end
      else failed YP_PACK_ERROR_UNSUPPORTED_DIRECTIVE (pos + 1) enc
  end.

(** Modelled from the spec: [yp_pack_parse] (pack.c, absent from the
    sources), the Scanner of 4.1, the Resolver of 4.2 and the Threader
    of 4.3 run on the span that starts at the cursor. *)
Definition yp_pack_parse (table : grammar_table) : yp_pack_parse_t :=
  fun version variant buffer pos enc =>
    if (pos <? 0) || (RSTRING_LEN buffer <=? pos) then pseudo pos YP_PACK_END enc
    else
      match skipn (Z.to_nat pos) buffer with
      | [] => pseudo pos YP_PACK_END enc
      | b :: rest =>
          if is_blank b then pseudo (pos + 1 + blank_run rest) YP_PACK_SPACE enc
          else if Byte.eqb b x23 then pseudo (pos + 1 + comment_run rest) YP_PACK_COMMENT enc
          else resolve_letter table version variant pos b rest enc
      end.

(** Modelled from the spec: a small directive table to run the decoder
    on; the authoritative table is external grammar data (spec 1 and 9),
    these rows only illustrate its shape. *)
Definition sample_table : grammar_table :=
  fun _ letter =>
    match letter with
    | x43 (* C *) =>
        Some (mkEntry YP_PACK_INTEGER YP_PACK_UNSIGNED YP_PACK_AGNOSTIC_ENDIAN YP_PACK_SIZE_8
                YP_PACK_LENGTH_FIXED 1 true true None true true false)
    | x53 (* S *) =>
        Some (mkEntry YP_PACK_INTEGER YP_PACK_UNSIGNED YP_PACK_NATIVE_ENDIAN YP_PACK_SIZE_16
                YP_PACK_LENGTH_FIXED 1 true true (Some YP_PACK_SIZE_SHORT) true true true)
    | x55 (* U *) =>
        Some (mkEntry YP_PACK_UTF8 YP_PACK_SIGNED_NA YP_PACK_ENDIAN_NA YP_PACK_SIZE_NA
                YP_PACK_LENGTH_FIXED 1 true true None true true false)
    | x77 (* w *) =>
        Some (mkEntry YP_PACK_BER YP_PACK_SIGNED_NA YP_PACK_ENDIAN_NA YP_PACK_SIZE_NA
                YP_PACK_LENGTH_FIXED 1 true true None true true false)
    | x61 (* a *) =>
        Some (mkEntry YP_PACK_STRING_NULL_PADDED YP_PACK_SIGNED_NA YP_PACK_ENDIAN_NA
                YP_PACK_SIZE_8 YP_PACK_LENGTH_FIXED 1 true true None true true false)
    | x70 (* p *) =>
        Some (mkEntry YP_PACK_STRING_POINTER YP_PACK_SIGNED_NA YP_PACK_ENDIAN_NA
                YP_PACK_SIZE_P YP_PACK_LENGTH_FIXED 1 true false None true true false)
    | _ => None
    end.

End SpecResolver.

(** [YARP::Pack.parse(version, variant, format)] on the reconstructed
    single-step parser and the sample table, the format given as text. *)
Definition parse_sample (fuel : nat) (version_symbol variant_symbol : VALUE) (text : string)
  : option (outcome Format) :=
  pack_parse (SpecResolver.yp_pack_parse SpecResolver.sample_table) fuel
    version_symbol variant_symbol (RString (list_byte_of_string text)).



(** ** Vocabulary of the statements *)

(** The five codes the driver turns into exceptions. *)
Definition fatal (code : yp_pack_result) : bool :=
  match code with
  | YP_PACK_ERROR_UNSUPPORTED_DIRECTIVE
  | YP_PACK_ERROR_UNKNOWN_DIRECTIVE
  | YP_PACK_ERROR_LENGTH_TOO_BIG
  | YP_PACK_ERROR_BANG_NOT_ALLOWED
  | YP_PACK_ERROR_DOUBLE_ENDIAN => true
  | _ => false
  end.

(** The exception class a call ended with, if it raised. *)
Definition raised_class {A : Type} (r : option (outcome A)) : option exception_class :=
  match r with
  | Some (Raise cls _) => Some cls
  | _ => None
  end.

(** The encoding a Directive of the stream forces, read off its type
    symbol (spec 4.3). *)
Definition forced_by (d : Directive) : option yp_pack_encoding :=
  match d_type d with
  | Symbol "UTF8" => Some YP_PACK_ENCODING_UTF_8
  | Symbol "BER" => Some YP_PACK_ENCODING_ASCII_8BIT
  | _ => None
  end.

(** The encoding forced by the last forcing Directive of a stream, the
    start value when there is none. *)
Fixpoint last_forced (rev_directives : list Directive) : yp_pack_encoding :=
  match rev_directives with
  | [] => YP_PACK_ENCODING_START
  | d :: earlier =>
      match forced_by d with
      | Some enc => enc
      | None => last_forced earlier
      end
  end.

(** Whether a value is a Symbol. *)
Definition is_symbol (v : VALUE) : bool :=
  match v with
  | Symbol _ => true
  | _ => false
  end.


(** The number of bytes of a format argument that is a String. *)
Definition format_length (format_string : VALUE) : nat :=
  match format_string with
  | RString buffer => List.length buffer
  | _ => O
  end.

Definition span_lengths (directives : list Directive) : list nat :=
  map (fun d => List.length (d_source d)) directives.

(** Loop invariant of the spans: the cursor is inside the buffer and the
    sources appended so far, laid end to end, are the input up to the
    cursor. *)
Definition tiled (buffer : list byte) (st : locals) : Prop :=
  0 <= format st <= RSTRING_LEN buffer /\
  List.concat (map d_source (directives_array st)) = firstn (Z.to_nat (format st)) buffer.

(** * The rest of the extension *)

(** ** Sources loaded from files (lines 21-76, 98-115, 132-149, 210-220) *)

Module Files.

Inductive source_type : Type := SOURCE_FILE | SOURCE_STRING.

(** [source_t].  [source] is the address the bytes start at; [type] is
    [None] while the field holds no value yet. *)
Record source_t : Type := mkSource {
  type : option source_type;
  source : Z;
  size : Z
}.

(** [(void * ) -1] as an address of a 64-bit address space. *)
Definition MAP_FAILED : Z := 2 ^ 64 - 1.

(** What the operating system answers: [open(path, O_RDONLY)] gives a
    descriptor or [-1]; [fstat(fd, &sb)] gives [st_size] or fails with
    [-1] ([None]); [mmap(NULL, length, PROT_READ, MAP_PRIVATE, fd, 0)]
    gives an address or [MAP_FAILED]. *)
Record system : Type := mkSystem {
  sys_open : list byte -> Z;
  sys_fstat : Z -> option Z;
  sys_mmap : Z -> Z -> Z
}.

(** The calls a function makes, in the order it makes them.
    [call_source] is a run of one of [dump_source], [lex_source] and
    [parse_source] on a loaded source. *)
Inductive call : Type :=
| call_open (path : list byte)
| call_fstat (fd : Z)
| call_mmap (length fd : Z)
| call_close (fd : Z)
| call_perror (s : string)
| call_munmap (addr length : Z)
| call_source (src : source_t).

(** [StringValueCStr]: a String without a NUL byte. *)
Definition StringValueCStr (v : VALUE) : outcome (list byte) :=
  match StringValue v with
  | Return path =>
      if existsb (Byte.eqb x00) path
      then Raise rb_eArgError "string contains null byte"
      else Return path
  | failure => failure
  end.

(** Lines 32-60.  [source_address] is the pointer [source] itself, the
    address of the [source_t] that [src] is the content of; the result is
    the [int] returned with the content the function leaves there. *)
Definition source_file_load (sys : system) (source_address : Z) (src : source_t)
    (filepath : VALUE) : outcome (Z * source_t) * list call :=
  match StringValueCStr filepath with
  | Return path =>
      let fd := sys_open sys path in
      if fd =? -1 then
        (Return (1, src), [call_open path; call_perror "open"])
      else
        match sys_fstat sys fd with
        | None =>
            (Return (1, src),
             [call_open path; call_fstat fd; call_close fd; call_perror "fstat"])
        | Some st_size =>
            let src1 := mkSource (type src) (source src) st_size in
            let src2 := mkSource (type src1) (sys_mmap sys (size src1) fd) (size src1) in
            if source_address =? MAP_FAILED then
              (Return (1, src2),
               [call_open path; call_fstat fd; call_mmap (size src1) fd; call_close fd;
                call_perror "mmap"])
            else
              (Return (0, src2),
               [call_open path; call_fstat fd; call_mmap (size src1) fd; call_close fd])
        end
  | Raise cls msg => (Raise cls msg, [])
  | Bug msg => (Bug msg, [])
  | OutOfBounds => (OutOfBounds, [])
  end.

(** Lines 73-76. *)
Definition source_file_unload (src : source_t) : list call :=
  [call_munmap (source src) (size src)].

Section FileEntry.

(** One of [dump_source], [lex_source] and [parse_source]. *)
Variable x_source : source_t -> VALUE.

Variable sys : system.

(** The local [source_t source] of the caller: its address and the
    content it has before it is loaded. *)
Variables (source_address : Z) (local : source_t).

(** Lines 107-115, 141-149 and 210-220: the three functions differ in the
    [*_source] they call and in nothing else. *)
Definition file_entry (filepath : VALUE) : outcome VALUE * list call :=
  match source_file_load sys source_address local filepath with
  | (Return (status, src), calls) =>
      if negb (status =? 0) then (Return Qnil, calls)
      else
        let value := x_source src in
        (Return value, calls ++ [call_source src] ++ source_file_unload src)
  | (Raise cls msg, calls) => (Raise cls msg, calls)
  | (Bug msg, calls) => (Bug msg, calls)
  | (OutOfBounds, calls) => (OutOfBounds, calls)
  end.

End FileEntry.

Definition dump_file (dump_source : source_t -> VALUE) := file_entry dump_source.
Definition lex_file (lex_source : source_t -> VALUE) := file_entry lex_source.
Definition parse_file (parse_source : source_t -> VALUE) := file_entry parse_source.

(** The descriptors a trace opens with success, closes, and the mappings
    it makes and releases. *)
Definition closed (calls : list call) : list Z :=
  flat_map (fun c => match c with call_close fd => [fd] | _ => [] end) calls.

Definition unmapped (calls : list call) : list (Z * Z) :=
  flat_map (fun c => match c with call_munmap addr len => [(addr, len)] | _ => [] end) calls.

Definition sources_run (calls : list call) : list source_t :=
  flat_map (fun c => match c with call_source src => [src] | _ => [] end) calls.

(** A system for examples: one file, [/a.rb], of 12 bytes. *)
Definition one_file (mmap_answer : Z) : system :=
  mkSystem
    (fun path => if list_eq_dec Byte.byte_eq_dec path (list_byte_of_string "/a.rb")
                 then 3 else -1)
    (fun fd => if fd =? 3 then Some 12 else None)
    (fun _ _ => mmap_answer).

End Files.

(** ** Marshalling a parse (lines 151-208) *)

Module Parse.

(** The comment types the source names; [YP_COMMENT_OTHER] stands for
    any value that reaches the [default] arm. *)
Inductive yp_comment_type : Type :=
| YP_COMMENT_INLINE
| YP_COMMENT_EMBDOC
| YP_COMMENT___END__
| YP_COMMENT_OTHER (code : Z).

(** The fields of [yp_comment_t] and [yp_error_t] the source reads; a
    list stands for the chain of [node.next] up to [NULL]. *)
Record yp_comment_t : Type := mkCommentNode {
  comment_type : yp_comment_type;
  comment_start : Z;
  comment_end : Z
}.

Record yp_error_t : Type := mkErrorNode {
  error_message : list byte;
  error_start : Z;
  error_end : Z
}.

(** What [yp_parse] leaves: the lists of the parser and the Ruby value
    [yp_node_new] makes of the tree. *)
Record parsed : Type := mkParsed {
  node_value : VALUE;
  comment_list : list yp_comment_t;
  error_list : list yp_error_t
}.

(** Instances of YARP::Location, YARP::Comment, YARP::ParseError and
    YARP::ParseResult: their constructor arguments. *)
Record Location : Type := mkLocation {
  l_start : VALUE;
  l_end : VALUE
}.

Record Comment : Type := mkComment {
  c_type : VALUE;
  c_location : Location
}.

Record ParseError : Type := mkParseError {
  e_message : VALUE;
  e_location : Location
}.

Record ParseResult : Type := mkParseResult {
  r_node : VALUE;
  r_comments : list Comment;
  r_errors : list ParseError
}.

(** [LONG2FIX]: the tagged word keeps the low 63 bits of the [long]; the
    Integer it denotes is their signed value. *)
Definition LONG2FIX (i : Z) : VALUE :=
  Integer ((to_long i + 2 ^ 62) mod 2 ^ 63 - 2 ^ 62).

(** Lines 165-178. *)
Definition comment_type_symbol (t : yp_comment_type) : VALUE :=
  match t with
  | YP_COMMENT_INLINE => ID2SYM_rb_intern "inline"
  | YP_COMMENT_EMBDOC => ID2SYM_rb_intern "embdoc"
  | YP_COMMENT___END__ => ID2SYM_rb_intern "__END__"
  | _ => ID2SYM_rb_intern "inline"
  end.

(** Lines 160-182. *)
Fixpoint comments_loop (comment : list yp_comment_t) (comments : list Comment)
  : list Comment :=
  match comment with
  | [] => comments
  | c :: next =>
      let location := mkLocation (LONG2FIX (comment_start c)) (LONG2FIX (comment_end c)) in
      let type := comment_type_symbol (comment_type c) in
      comments_loop next (rb_ary_push comments (mkComment type location))
  end.

(** Lines 184-192. *)
Fixpoint errors_loop (error : list yp_error_t) (errors : list ParseError)
  : list ParseError :=
  match error with
  | [] => errors
  | e :: next =>
      let location := mkLocation (LONG2FIX (error_start e)) (LONG2FIX (error_end e)) in
      errors_loop next
        (rb_ary_push errors (mkParseError (RString (error_message e)) location))
  end.

(** Lines 151-201, on the bytes the source points to. *)
Definition parse_source (yp_parse : list byte -> parsed) (contents : list byte)
  : ParseResult :=
  let parser := yp_parse contents in
  let comments := comments_loop (comment_list parser) [] in
  let errors := errors_loop (error_list parser) [] in
  mkParseResult (node_value parser) comments errors.

(** Whether an offset is a fixnum. *)
Definition FIXABLE (i : Z) : Prop := - 2 ^ 62 <= i < 2 ^ 62.

End Parse.

(** ** Lexing (lines 117-138) *)

Module Lex.

Section Lexer.

(** The lexer: the parser state, [yp_parser_init] on the bytes of the
    source, one [yp_lex_token], whether [parser.current.type] is
    [YP_TOKEN_EOF], and the Ruby token [yp_token_new] makes of
    [parser.current]. *)
Variable yp_parser_t : Type.
Variable yp_parser_init : list byte -> yp_parser_t.
Variable yp_lex_token : yp_parser_t -> yp_parser_t.
Variable current_is_EOF : yp_parser_t -> bool.
Variable yp_token_new : yp_parser_t -> VALUE.

(** The [for] loop of lines 124-126 from its test on, iterated at most
    [fuel] times. *)
Fixpoint lex_loop (fuel : nat) (parser : yp_parser_t) (ary : list VALUE)
  : option (list VALUE) :=
  if current_is_EOF parser then Some ary
  else
    match fuel with
    | O => None
    | S fuel' =>
        lex_loop fuel' (yp_lex_token parser) (rb_ary_push ary (yp_token_new parser))
    end.

(** Lines 118-130, on the bytes the source points to. *)
Definition lex_source (fuel : nat) (contents : list byte) : option (list VALUE) :=
  let parser := yp_parser_init contents in
  lex_loop fuel (yp_lex_token parser) [].

(** The parser state after [k] calls of [yp_lex_token]. *)
Definition lexed (contents : list byte) (k : nat) : yp_parser_t :=
  Nat.iter k yp_lex_token (yp_parser_init contents).

End Lexer.

End Lex.

(** * Properties of the driver *)

Lemma VALUE_eqb_eq (a b : VALUE) : VALUE_eqb a b = true -> a = b.
Proof.
  destruct a as [|x|x|x|x], b as [|y|y|y|y]; simpl; try discriminate; auto.
  - intro H. apply String.eqb_eq in H. now subst.
  - intro H. apply Z.eqb_eq in H. now subst.
  - destruct x, y; try discriminate; auto.
Qed.

Lemma VALUE_eqb_neq (a b : VALUE) : a <> b -> VALUE_eqb a b = false.
Proof.
  intro H. destruct (VALUE_eqb a b) eqn:E; auto.
  apply VALUE_eqb_eq in E. contradiction.
Qed.

Section Loop.

Variable yp_pack_parse : yp_pack_parse_t.
Variables (version : yp_pack_version) (variant : yp_pack_variant).
Variables (version_symbol variant_symbol : VALUE).
Variable buffer : list byte.

Let step := pack_parse_step yp_pack_parse version variant version_symbol variant_symbol buffer.
Let loop := pack_parse_loop yp_pack_parse version variant version_symbol variant_symbol buffer.
Let iterate :=
  pack_parse_iterate yp_pack_parse version variant version_symbol variant_symbol buffer.

(** More fuel never changes a result already obtained. *)
Lemma loop_fuel_mono (fuel fuel' : nat) (st : locals) (o : outcome Format) :
  loop fuel st = Some o -> (fuel <= fuel')%nat -> loop fuel' st = Some o.
Proof.
  revert fuel' st. induction fuel as [|fuel IH]; intros fuel' st H Hle.
  - destruct fuel'; simpl in H |- *; fold step in H |- *; destruct (step st); congruence.
  - destruct fuel' as [|fuel']; [lia|].
    simpl in H |- *; fold step in H |- *. destruct (step st) as [st'|o']; auto.
    apply IH; [exact H | lia].
Qed.

(** Two runs of the loop that both finish agree, whatever their fuel. *)
Lemma loop_fuel_agree (fuel1 fuel2 : nat) (st : locals) (o1 o2 : outcome Format) :
  loop fuel1 st = Some o1 -> loop fuel2 st = Some o2 -> o1 = o2.
Proof.
  intros H1 H2.
  apply loop_fuel_mono with (fuel' := Nat.max fuel1 fuel2) in H1; [|lia].
  apply loop_fuel_mono with (fuel' := Nat.max fuel1 fuel2) in H2; [|lia].
  congruence.
Qed.

(** After [n] complete iterations the loop continues from the locals
    they leave; when the next step leaves the function, so does the loop. *)
Lemma loop_after_iterate (n : nat) :
  forall (st st' : locals) (o : outcome Format) (fuel : nat),
    iterate n st = Some st' -> step st' = Done o -> (n <= fuel)%nat ->
    loop fuel st = Some o.
Proof.
  induction n as [|n IH]; intros st st' o fuel Hit Hstep Hle.
  - simpl in Hit. injection Hit as <-.
    destruct fuel; simpl; fold step; now rewrite Hstep.
  - destruct fuel as [|fuel]; [lia|].
    simpl in Hit |- *. fold step in Hit |- *.
    destruct (step st) as [st1|o1]; [|discriminate].
    apply (IH st1 st' o fuel); [exact Hit | exact Hstep | lia].
Qed.

(** What a step that stays in the loop did. *)
Lemma step_scanning (st st' : locals) :
  step st = Scanning st' ->
  let r := yp_pack_parse version variant buffer (format st) (encoding st) in
  format st < RSTRING_LEN buffer /\
  parse_result r = YP_PACK_OK /\
  out_type r <> YP_PACK_END /\
  format st' = out_format r /\
  encoding st' = out_encoding r /\
  0 <= format st <= format st' /\ format st' <= RSTRING_LEN buffer /\
  exists d,
    directives_array st' = directives_array st ++ [d] /\
    d_source d = firstn (Z.to_nat (format st' - format st)) (skipn (Z.to_nat (format st)) buffer) /\
    d_type d = pack_type_to_symbol (out_type r) /\
    d_length d = LONG2NUM (out_length r mod 2 ^ 64).
Proof.
  intros H r. unfold step, pack_parse_step in H. fold r in H.
  destruct (format st <? RSTRING_LEN buffer) eqn:Hlt; [|discriminate].
  apply Z.ltb_lt in Hlt.
  destruct (parse_result r) eqn:Hres; try discriminate.
  unfold rb_usascii_str_new in H.
  destruct (out_format r - format st <? 0) eqn:Hneg.
  { destruct (out_type r); discriminate. }
  apply Z.ltb_ge in Hneg.
  destruct ((format st <? 0) || (RSTRING_LEN buffer <? format st + (out_format r - format st)))
    eqn:Hoob.
  { destruct (out_type r); discriminate. }
  apply orb_false_elim in Hoob as [Hs He].
  apply Z.ltb_ge in Hs. apply Z.ltb_ge in He.
  assert (Hst' : out_type r <> YP_PACK_END /\
                 st' = mkLocals (out_format r) (out_encoding r)
                         (rb_ary_push (directives_array st)
                            (mkDirective version_symbol variant_symbol
                               (firstn (Z.to_nat (out_format r - format st))
                                  (skipn (Z.to_nat (format st)) buffer))
                               (pack_type_to_symbol (out_type r))
                               (pack_signed_to_symbol (out_signed_type r))
                               (pack_endian_to_symbol (out_endian r))
                               (pack_size_to_symbol (out_size r))
                               (pack_length_type_to_symbol (out_length_type r))
                               (LONG2NUM (out_length r mod 2 ^ 64))))).
  { destruct (out_type r); try discriminate; split; try discriminate;
      injection H as <-; reflexivity. }
  destruct Hst' as [Hty ->]. simpl.
  repeat split; try lia; auto.
  eexists. repeat split; reflexivity.
Qed.

End Loop.

Lemma pack_parse_valid (yp_pack_parse : yp_pack_parse_t) (fuel : nat)
    (variant_symbol : VALUE) (variant : yp_pack_variant) (buffer : list byte) :
  variant_of variant_symbol = Some variant ->
  pack_parse yp_pack_parse fuel v3_2_0_symbol variant_symbol (RString buffer) =
  pack_parse_loop yp_pack_parse YP_PACK_VERSION_3_2_0 variant v3_2_0_symbol variant_symbol
    buffer fuel entry.
Proof.
  intro Hv. unfold pack_parse. simpl VALUE_eqb. rewrite Hv. reflexivity.
Qed.

(** A step that leaves the function after [n] complete iterations is what
    the whole call returns, given fuel for those iterations. *)
Lemma pack_parse_done (yp_pack_parse : yp_pack_parse_t) (fuel n : nat)
    (variant_symbol : VALUE) (variant : yp_pack_variant) (buffer : list byte)
    (st : locals) (o : outcome Format) :
  variant_of variant_symbol = Some variant ->
  pack_parse_iterate yp_pack_parse YP_PACK_VERSION_3_2_0 variant v3_2_0_symbol variant_symbol
    buffer n entry = Some st ->
  pack_parse_step yp_pack_parse YP_PACK_VERSION_3_2_0 variant v3_2_0_symbol variant_symbol
    buffer st = Done o ->
  (n <= fuel)%nat ->
  pack_parse yp_pack_parse fuel v3_2_0_symbol variant_symbol (RString buffer) = Some o.
Proof.
  intros Hv Hit Hstep Hle.
  rewrite (pack_parse_valid _ _ _ _ _ Hv).
  eapply loop_after_iterate; eauto.
Qed.

(** Each complete iteration appends exactly one Directive. *)
Lemma iterate_directives_count (yp_pack_parse : yp_pack_parse_t)
    (version : yp_pack_version) (variant : yp_pack_variant)
    (version_symbol variant_symbol : VALUE) (buffer : list byte) (n : nat) :
  forall st st',
    pack_parse_iterate yp_pack_parse version variant version_symbol variant_symbol buffer
      n st = Some st' ->
    exists appended,
      directives_array st' = directives_array st ++ appended /\ List.length appended = n.
Proof.
  induction n as [|n IH]; intros st st' H.
  - simpl in H. injection H as <-. exists []. now rewrite app_nil_r.
  - simpl in H.
    destruct (pack_parse_step _ _ _ _ _ _ st) as [st1|] eqn:E; [|discriminate].
    apply step_scanning in E. cbv zeta in E.
    destruct E as (_ & _ & _ & _ & _ & _ & _ & d & Hd & _).
    destruct (IH _ _ H) as (l & Hl & Hn).
    exists (d :: l). split; [|simpl; now rewrite Hn].
    rewrite Hl, Hd, <- app_assoc. reflexivity.
Qed.

(** The step the driver takes on each result code, inside the buffer. *)
Lemma step_on_code (yp_pack_parse : yp_pack_parse_t)
    (version : yp_pack_version) (variant : yp_pack_variant)
    (version_symbol variant_symbol : VALUE) (buffer : list byte) (st : locals) :
  format st < RSTRING_LEN buffer ->
  pack_parse_step yp_pack_parse version variant version_symbol variant_symbol buffer st =
  match parse_result (yp_pack_parse version variant buffer (format st) (encoding st)) with
  | YP_PACK_OK =>
      pack_parse_step yp_pack_parse version variant version_symbol variant_symbol buffer st
  | YP_PACK_ERROR_UNSUPPORTED_DIRECTIVE => Done (Raise rb_eArgError "unsupported directive")
  | YP_PACK_ERROR_UNKNOWN_DIRECTIVE => Done (Raise rb_eArgError "unsupported directive")
  | YP_PACK_ERROR_LENGTH_TOO_BIG => Done (Raise rb_eRangeError "pack length too big")
  | YP_PACK_ERROR_BANG_NOT_ALLOWED => Done (Raise rb_eRangeError "bang not allowed")
  | YP_PACK_ERROR_DOUBLE_ENDIAN => Done (Raise rb_eRangeError "double endian")
  | YP_PACK_RESULT_OTHER _ => Done (Bug "parse result")
  end.
Proof.
  intro Hlt. apply Z.ltb_lt in Hlt.
  destruct (parse_result _) eqn:E; auto;
    unfold pack_parse_step; rewrite Hlt, E; reflexivity.
Qed.

(** ** Fatal codes *)



(** C10.  Inside the buffer, after [n] spans that resolved, the result
    code of the next call decides how the whole call ends:
    UNKNOWN_DIRECTIVE and UNSUPPORTED_DIRECTIVE raise ArgumentError,
    LENGTH_TOO_BIG, BANG_NOT_ALLOWED and DOUBLE_ENDIAN raise RangeError,
    and every other code that is not OK ends in [rb_bug], which is no
    exception at all. *)
Theorem decode_errors_exception_classes (yp_pack_parse : yp_pack_parse_t)
    (variant_symbol : VALUE) (variant : yp_pack_variant) (buffer : list byte)
    (n fuel : nat) (st : locals) :
  variant_of variant_symbol = Some variant ->
  pack_parse_iterate yp_pack_parse YP_PACK_VERSION_3_2_0 variant v3_2_0_symbol variant_symbol
    buffer n entry = Some st ->
  format st < RSTRING_LEN buffer ->
  (n <= fuel)%nat ->
  let code :=
    parse_result
      (yp_pack_parse YP_PACK_VERSION_3_2_0 variant buffer (format st) (encoding st)) in
  let result := pack_parse yp_pack_parse fuel v3_2_0_symbol variant_symbol (RString buffer) in
  (code = YP_PACK_ERROR_UNKNOWN_DIRECTIVE \/ code = YP_PACK_ERROR_UNSUPPORTED_DIRECTIVE ->
   raised_class result = Some rb_eArgError) /\
  (code = YP_PACK_ERROR_LENGTH_TOO_BIG \/ code = YP_PACK_ERROR_BANG_NOT_ALLOWED \/
   code = YP_PACK_ERROR_DOUBLE_ENDIAN ->
   raised_class result = Some rb_eRangeError) /\
  (code <> YP_PACK_OK -> fatal code = false ->
   result = Some (Bug "parse result") /\ raised_class result = None).
Proof.
  intros Hv Hit Hlt Hle code result.
  pose proof (step_on_code yp_pack_parse YP_PACK_VERSION_3_2_0 variant v3_2_0_symbol
                variant_symbol buffer st Hlt) as Hstep.
  fold code in Hstep.
  assert (Hres : forall o,
             pack_parse_step yp_pack_parse YP_PACK_VERSION_3_2_0 variant v3_2_0_symbol
               variant_symbol buffer st = Done o -> result = Some o).
  { intros o Ho. unfold result. eapply pack_parse_done; eauto. }
  split; [|split].
  - intros [E|E]; rewrite E in Hstep; rewrite (Hres _ Hstep); reflexivity.
  - intros [E|[E|E]]; rewrite E in Hstep; rewrite (Hres _ Hstep); reflexivity.
  - intros Hnok Hnf.
    destruct code; simpl in Hnf; try discriminate; try congruence.
    rewrite (Hres _ Hstep). split; reflexivity.
Qed.

Lemma decode_errors_exception_classes_witness :
  raised_class (parse_sample 2 v3_2_0_symbol unpack_symbol "C S<>") = Some rb_eRangeError.
Proof.
  refine (proj1 (proj2 (decode_errors_exception_classes
            (SpecResolver.yp_pack_parse SpecResolver.sample_table)
            unpack_symbol YP_PACK_VARIANT_UNPACK (list_byte_of_string "C S<>") 2 2
            (mkLocals 2 YP_PACK_ENCODING_START
               [mkDirective v3_2_0_symbol unpack_symbol (list_byte_of_string "C")
                  (Symbol "INTEGER") (Symbol "UNSIGNED") (Symbol "AGNOSTIC_ENDIAN")
                  (Symbol "SIZE_8") (Symbol "LENGTH_FIXED") (Integer 1);
                mkDirective v3_2_0_symbol unpack_symbol (list_byte_of_string " ")
                  (Symbol "SPACE") (Symbol "SIGNED_NA") (Symbol "ENDIAN_NA")
                  (Symbol "SIZE_NA") (Symbol "LENGTH_NA") (Integer 0)])
            _ _ _ _)) _).
  - reflexivity.
  - vm_compute. reflexivity.
  - vm_compute. reflexivity.
  - lia.
  - right. right. vm_compute. reflexivity.
Defined.

(** ** The two directive errors *)

(** The arms for UNKNOWN_DIRECTIVE and UNSUPPORTED_DIRECTIVE raise the
    same class with the same message: the step taken cannot tell the two
    codes apart. *)
Lemma unknown_unsupported_same_step (yp_pack_parse : yp_pack_parse_t)
    (version : yp_pack_version) (variant variant' : yp_pack_variant)
    (version_symbol variant_symbol variant_symbol' : VALUE)
    (buffer buffer' : list byte) (st st' : locals) :
  format st < RSTRING_LEN buffer ->
  format st' < RSTRING_LEN buffer' ->
  parse_result (yp_pack_parse version variant buffer (format st) (encoding st))
    = YP_PACK_ERROR_UNKNOWN_DIRECTIVE ->
  parse_result (yp_pack_parse version variant' buffer' (format st') (encoding st'))
    = YP_PACK_ERROR_UNSUPPORTED_DIRECTIVE ->
  pack_parse_step yp_pack_parse version variant version_symbol variant_symbol buffer st =
  pack_parse_step yp_pack_parse version variant' version_symbol variant_symbol' buffer' st'.
Proof.
  intros Hlt Hlt' Hk Hs.
  rewrite (step_on_code _ _ _ _ _ _ _ Hlt), (step_on_code _ _ _ _ _ _ _ Hlt'), Hk, Hs.
  reflexivity.
Qed.

(** C3.  On the sample table the letter [y] has no row and the letter
    [p] has a row that is invalid for unpack: the single-step parser tells
    the two apart (UNKNOWN_DIRECTIVE, UNSUPPORTED_DIRECTIVE), yet both
    calls end with the same exception, ArgumentError "unsupported
    directive". *)
Theorem unknown_directive_surfaces_as_unsupported :
  parse_result
    (SpecResolver.yp_pack_parse SpecResolver.sample_table YP_PACK_VERSION_3_2_0
       YP_PACK_VARIANT_UNPACK (list_byte_of_string "y") 0 YP_PACK_ENCODING_START)
    = YP_PACK_ERROR_UNKNOWN_DIRECTIVE /\
  parse_result
    (SpecResolver.yp_pack_parse SpecResolver.sample_table YP_PACK_VERSION_3_2_0
       YP_PACK_VARIANT_UNPACK (list_byte_of_string "p") 0 YP_PACK_ENCODING_START)
    = YP_PACK_ERROR_UNSUPPORTED_DIRECTIVE /\
  parse_sample 0 v3_2_0_symbol unpack_symbol "y"
    = Some (Raise rb_eArgError "unsupported directive") /\
  parse_sample 0 v3_2_0_symbol unpack_symbol "p"
    = Some (Raise rb_eArgError "unsupported directive").
Proof. repeat split; vm_compute; reflexivity. Qed.

(** ** The reported length *)

Lemma to_long_small (x : Z) : 0 <= x < 2 ^ 63 -> to_long x = x.
Proof.
  intro H. unfold to_long, LONG_BIT. cbv zeta.
  rewrite Z.mod_small by lia.
  change (2 ^ (64 - 1)) with (2 ^ 63).
  destruct (x <? 2 ^ 63) eqn:E; [reflexivity|]. apply Z.ltb_ge in E. lia.
Qed.

Lemma to_long_large (x : Z) : 2 ^ 63 <= x < 2 ^ 64 -> to_long x = x - 2 ^ 64.
Proof.
  intro H. unfold to_long, LONG_BIT. cbv zeta.
  rewrite Z.mod_small by lia.
  change (2 ^ (64 - 1)) with (2 ^ 63).
  destruct (x <? 2 ^ 63) eqn:E; [|reflexivity]. apply Z.ltb_lt in E. lia.
Qed.

(** A length below [2^63] is reported as it is; a length from [2^63] up
    to the 64-bit maximum is reported [2^64] too low, as a negative
    Integer. *)
Lemma LONG2NUM_uint64 (length : Z) :
  0 <= length <= UINT64_MAX ->
  LONG2NUM (length mod 2 ^ 64) =
  Integer (if length <? 2 ^ 63 then length else length - 2 ^ 64).
Proof.
  unfold UINT64_MAX. intro H. rewrite Z.mod_small by lia. unfold LONG2NUM.
  destruct (length <? 2 ^ 63) eqn:E.
  - apply Z.ltb_lt in E. now rewrite to_long_small by lia.
  - apply Z.ltb_ge in E. now rewrite to_long_large by lia.
Qed.

(** C2.  The count [9223372036854775808] ([2^63]) fits the unsigned
    64-bit range: the single-step parser resolves it to that length with
    code OK, and the Directive the driver builds reports the length
    [-9223372036854775808]. *)
Theorem length_2_63_reported_negative :
  let r := SpecResolver.yp_pack_parse SpecResolver.sample_table YP_PACK_VERSION_3_2_0
             YP_PACK_VARIANT_PACK (list_byte_of_string "C9223372036854775808") 0
             YP_PACK_ENCODING_START in
  parse_result r = YP_PACK_OK /\
  out_length_type r = YP_PACK_LENGTH_FIXED /\
  out_length r = 9223372036854775808 /\
  out_length r <= UINT64_MAX /\
  option_map (fun o => match o with
                       | Return fmt => map d_length (f_directives fmt)
                       | _ => []
                       end)
    (parse_sample 1 v3_2_0_symbol pack_symbol "C9223372036854775808")
    = Some [Integer (-9223372036854775808)].
Proof. repeat split; vm_compute; try reflexivity; discriminate. Qed.

(** ** Usage errors *)

(** The messages of the exceptions a loop step can raise. *)
Lemma step_raise_messages (yp_pack_parse : yp_pack_parse_t)
    (version : yp_pack_version) (variant : yp_pack_variant)
    (version_symbol variant_symbol : VALUE) (buffer : list byte) (st : locals)
    (cls : exception_class) (msg : string) :
  pack_parse_step yp_pack_parse version variant version_symbol variant_symbol buffer st
    = Done (Raise cls msg) ->
  In (cls, msg)
    [(rb_eArgError, "unsupported directive");
     (rb_eRangeError, "pack length too big");
     (rb_eRangeError, "bang not allowed");
     (rb_eRangeError, "double endian");
     (rb_eArgError, "negative string size (or size too big)")].
Proof.
  unfold pack_parse_step, pack_parse_return.
  destruct (format st <? RSTRING_LEN buffer); [|discriminate].
  destruct (parse_result _).
  - unfold rb_usascii_str_new.
    destruct (_ <? 0).
    + destruct (out_type _); intro H; try discriminate;
        injection H as <- <-; simpl; auto 10.
    + destruct (_ || _); destruct (out_type _); discriminate.
  - intro H; injection H as <- <-; simpl; auto 10.
  - intro H; injection H as <- <-; simpl; auto 10.
  - intro H; injection H as <- <-; simpl; auto 10.
  - intro H; injection H as <- <-; simpl; auto 10.
  - intro H; injection H as <- <-; simpl; auto 10.
  - discriminate.
Qed.

(** C4, as the code has it.  A version symbol other than [:v3_2_0]
    raises ArgumentError "invalid version", and with that version a
    variant symbol other than [:pack] and [:unpack] raises ArgumentError
    "invalid variant": for every single-step parser, every fuel and every
    format argument, so before anything is scanned or built.  The class is
    ArgumentError, the one the directive errors raise too; what sets the
    usage errors apart from every exception of the loop is their message. *)
Theorem usage_errors_fail_fast (yp_pack_parse : yp_pack_parse_t) (fuel : nat)
    (version_symbol variant_symbol format_string : VALUE) :
  (version_symbol <> v3_2_0_symbol ->
   pack_parse yp_pack_parse fuel version_symbol variant_symbol format_string
     = Some (Raise rb_eArgError "invalid version")) /\
  (version_symbol = v3_2_0_symbol ->
   variant_symbol <> pack_symbol -> variant_symbol <> unpack_symbol ->
   pack_parse yp_pack_parse fuel version_symbol variant_symbol format_string
     = Some (Raise rb_eArgError "invalid variant")) /\
  (forall version variant buffer st cls msg,
     pack_parse_step yp_pack_parse version variant version_symbol variant_symbol buffer st
       = Done (Raise cls msg) ->
     msg <> "invalid version" /\ msg <> "invalid variant").
Proof.
  split; [|split].
  - intro Hv. unfold pack_parse. now rewrite (VALUE_eqb_neq _ _ Hv).
  - intros -> Hp Hu. unfold pack_parse, variant_of. simpl VALUE_eqb at 1.
    now rewrite (VALUE_eqb_neq _ _ Hp), (VALUE_eqb_neq _ _ Hu).
  - intros version variant buffer st cls msg H.
    apply step_raise_messages in H. simpl in H.
    repeat (destruct H as [H|H]; [injection H as <- <-; split; discriminate|]).
    contradiction.
Qed.

Lemma usage_errors_fail_fast_witness :
  parse_sample 0 (Symbol "v3_1_0") pack_symbol "C"
    = Some (Raise rb_eArgError "invalid version") /\
  parse_sample 0 v3_2_0_symbol (Symbol "both") "C"
    = Some (Raise rb_eArgError "invalid variant").
Proof.
  split.
  - apply (proj1 (usage_errors_fail_fast
                    (SpecResolver.yp_pack_parse SpecResolver.sample_table) 0
                    (Symbol "v3_1_0") pack_symbol (RString (list_byte_of_string "C")))).
    discriminate.
  - apply (proj1 (proj2 (usage_errors_fail_fast
                    (SpecResolver.yp_pack_parse SpecResolver.sample_table) 0
                    v3_2_0_symbol (Symbol "both") (RString (list_byte_of_string "C"))))).
    + reflexivity.
    + discriminate.
    + discriminate.
Defined.

(** C4, as stated, fails: the usage error for a bad version is an
    ArgumentError, and so is the decode-time error for a letter without a
    row in the table. *)
Lemma usage_error_class_is_decode_error_class :
  parse_sample 0 (Symbol "v3_1_0") pack_symbol "C"
    = Some (Raise rb_eArgError "invalid version") /\
  parse_sample 0 v3_2_0_symbol pack_symbol "y"
    = Some (Raise rb_eArgError "unsupported directive") /\
  raised_class (parse_sample 0 (Symbol "v3_1_0") pack_symbol "C")
    = raised_class (parse_sample 0 v3_2_0_symbol pack_symbol "y").
Proof. repeat split. Qed.

(** ** Termination *)

Section Termination.

Variable yp_pack_parse : yp_pack_parse_t.
Variables (version : yp_pack_version) (variant : yp_pack_variant).
Variables (version_symbol variant_symbol : VALUE).
Variable buffer : list byte.

(** A span that resolves is not empty. *)
Hypothesis progress :
  forall pos enc,
    0 <= pos < RSTRING_LEN buffer ->
    parse_result (yp_pack_parse version variant buffer pos enc) = YP_PACK_OK ->
    pos < out_format (yp_pack_parse version variant buffer pos enc).

(** The loop then leaves the function within as many iterations as
    there are bytes after the cursor. *)
Lemma loop_terminates (fuel : nat) :
  forall st,
    0 <= format st ->
    (Z.to_nat (RSTRING_LEN buffer - format st) <= fuel)%nat ->
    exists o,
      pack_parse_loop yp_pack_parse version variant version_symbol variant_symbol buffer
        fuel st = Some o.
Proof.
  induction fuel as [|fuel IH]; intros st Hpos Hfuel; simpl;
    destruct (pack_parse_step _ _ _ _ _ _ st) as [st'|o] eqn:Hstep; eauto;
    apply step_scanning in Hstep; cbv zeta in Hstep;
    destruct Hstep as (Hlt & Hok & _ & Hfmt & _ & Hle & _).
  - lia.
  - apply IH; [lia|].
    pose proof (progress (format st) (encoding st) ltac:(lia) Hok) as Hadv.
    rewrite <- Hfmt in Hadv. lia.
Qed.

End Termination.

(** With a single-step parser whose resolved spans are never empty, a
    call returns as soon as the fuel covers the bytes of the format. *)
Lemma pack_parse_returns (yp_pack_parse : yp_pack_parse_t) (fuel : nat)
    (version_symbol variant_symbol format_string : VALUE) :
  (forall version variant buffer pos enc,
      0 <= pos < RSTRING_LEN buffer ->
      parse_result (yp_pack_parse version variant buffer pos enc) = YP_PACK_OK ->
      pos < out_format (yp_pack_parse version variant buffer pos enc)) ->
  (format_length format_string <= fuel)%nat ->
  exists o,
    pack_parse yp_pack_parse fuel version_symbol variant_symbol format_string = Some o.
Proof.
  intros Hprogress Hfuel. unfold pack_parse.
  destruct (VALUE_eqb version_symbol v3_2_0_symbol); [|eauto].
  destruct (variant_of variant_symbol) as [variant|]; [|eauto].
  destruct format_string as [|name|k|buffer|enc]; simpl; eauto.
  apply loop_terminates.
  - intros pos enc. apply Hprogress.
  - simpl. lia.
  - simpl in Hfuel |- *. unfold RSTRING_LEN. lia.
Qed.

(** ** Termination of the reconstructed parser *)

Lemma modifiers_consumed (e : SpecResolver.letter_entry) (rest : list byte) :
  forall rs,
    SpecResolver.rs_consumed rs
    <= SpecResolver.rs_consumed (snd (SpecResolver.modifiers e rest rs)).
Proof.
  induction rest as [|b rest IH]; intro rs; simpl; [lia|].
  destruct (SpecResolver.digit_of_byte b) as [d|].
  - destruct (SpecResolver.le_count e); simpl; [|lia].
    destruct (UINT64_MAX <? _); simpl; [lia|].
    etransitivity; [|apply IH]. unfold SpecResolver.bump. simpl. lia.
  - assert (Hendian : forall wanted,
               SpecResolver.rs_consumed rs
               <= SpecResolver.rs_consumed
                    (snd match SpecResolver.apply_endian e wanted rs with
                         | (YP_PACK_OK, rs') => SpecResolver.modifiers e rest rs'
                         | failed => failed
                         end)).
    { intro wanted. unfold SpecResolver.apply_endian.
      destruct (SpecResolver.le_endian_modifier e).
      - destruct (SpecResolver.rs_endian_given rs); simpl; [lia|].
        etransitivity; [|apply IH]. unfold SpecResolver.bump. simpl. lia.
      - destruct (SpecResolver.le_endian e), wanted; simpl; try lia;
          (etransitivity; [|apply IH]); unfold SpecResolver.bump; simpl; lia. }
    destruct b; simpl; try lia; try apply Hendian.
    + destruct (SpecResolver.le_bang e); simpl; [|lia].
      etransitivity; [|apply IH]. unfold SpecResolver.bump. simpl. lia.
    + destruct (SpecResolver.le_wildcard e); simpl; [|lia].
      etransitivity; [|apply IH]. unfold SpecResolver.bump. simpl. lia.
Qed.

Lemma blank_run_nonneg (rest : list byte) : 0 <= SpecResolver.blank_run rest.
Proof.
  induction rest as [|b rest IH]; cbn -[Z.add]; [lia|].
  destruct (SpecResolver.is_blank b); lia.
Qed.

Lemma comment_run_nonneg (rest : list byte) : 0 <= SpecResolver.comment_run rest.
Proof.
  induction rest as [|b rest IH]; cbn -[Z.add]; [lia|].
  destruct b; lia.
Qed.

(** The reconstructed single-step parser consumes at least the byte under
    the cursor whenever it resolves a span inside the buffer. *)
Lemma spec_parser_progress (table : SpecResolver.grammar_table)
    (version : yp_pack_version) (variant : yp_pack_variant) (buffer : list byte)
    (pos : Z) (enc : yp_pack_encoding) :
  0 <= pos < RSTRING_LEN buffer ->
  parse_result (SpecResolver.yp_pack_parse table version variant buffer pos enc)
    = YP_PACK_OK ->
  pos < out_format (SpecResolver.yp_pack_parse table version variant buffer pos enc).
Proof.
  intro Hpos. unfold SpecResolver.yp_pack_parse.
  replace ((pos <? 0) || (RSTRING_LEN buffer <=? pos)) with false
    by (symmetry; apply orb_false_intro; [apply Z.ltb_ge | apply Z.leb_gt]; lia).
  destruct (skipn (Z.to_nat pos) buffer) as [|b rest] eqn:Hskip.
  { apply (f_equal (@List.length byte)) in Hskip. rewrite length_skipn in Hskip.
    unfold RSTRING_LEN in Hpos. simpl in Hskip. lia. }
  destruct (SpecResolver.is_blank b).
  { simpl. pose proof (blank_run_nonneg rest). lia. }
  destruct (Byte.eqb b x23).
  { simpl. pose proof (comment_run_nonneg rest). lia. }
  unfold SpecResolver.resolve_letter.
  destruct (table version b) as [e|]; [|discriminate].
  destruct (SpecResolver.valid_for variant e); [|discriminate].
  pose proof (modifiers_consumed e rest
                (SpecResolver.mkResolving 1 (SpecResolver.le_endian e) false
                   (SpecResolver.le_size e) (SpecResolver.le_length_type e)
                   (SpecResolver.le_length e) false)) as Hm.
  destruct (SpecResolver.modifiers e rest _) as [[| | | | | |k] rs]; simpl in *;
    try discriminate.
  lia.
Qed.

Lemma modifiers_consumed_at_most (e : SpecResolver.letter_entry) (rest : list byte) :
  forall rs,
    SpecResolver.rs_consumed (snd (SpecResolver.modifiers e rest rs))
    <= SpecResolver.rs_consumed rs + Z.of_nat (List.length rest).
Proof.
  induction rest as [|b rest IH]; intro rs; cbn [SpecResolver.modifiers List.length];
    [simpl; lia|].
  assert (Hnext : forall rs',
             SpecResolver.rs_consumed rs' = SpecResolver.rs_consumed rs + 1 ->
             SpecResolver.rs_consumed (snd (SpecResolver.modifiers e rest rs'))
             <= SpecResolver.rs_consumed rs + Z.of_nat (S (List.length rest))).
  { intros rs' Hrs'. specialize (IH rs'). lia. }
  assert (Hstop : SpecResolver.rs_consumed rs
                  <= SpecResolver.rs_consumed rs + Z.of_nat (S (List.length rest))) by lia.
  assert (Hendian : forall wanted,
             SpecResolver.rs_consumed
               (snd match SpecResolver.apply_endian e wanted rs with
                    | (YP_PACK_OK, rs') => SpecResolver.modifiers e rest rs'
                    | failed => failed
                    end)
             <= SpecResolver.rs_consumed rs + Z.of_nat (S (List.length rest))).
  { intro wanted. unfold SpecResolver.apply_endian.
    destruct (SpecResolver.le_endian_modifier e).
    - destruct (SpecResolver.rs_endian_given rs); [exact Hstop | now apply Hnext].
    - destruct (SpecResolver.le_endian e), wanted; try exact Hstop; now apply Hnext. }
  destruct (SpecResolver.digit_of_byte b) as [d|].
  - destruct (SpecResolver.le_count e); [|exact Hstop].
    destruct (UINT64_MAX <? _); [exact Hstop | now apply Hnext].
  - destruct b; try exact Hstop; try apply Hendian.
    + destruct (SpecResolver.le_bang e); [now apply Hnext | exact Hstop].
    + destruct (SpecResolver.le_wildcard e); [now apply Hnext | exact Hstop].
Qed.

Lemma blank_run_at_most (rest : list byte) :
  SpecResolver.blank_run rest <= Z.of_nat (List.length rest).
Proof.
  induction rest as [|b rest IH]; cbn -[Z.add Z.of_nat]; [lia|].
  destruct (SpecResolver.is_blank b); lia.
Qed.

Lemma comment_run_at_most (rest : list byte) :
  SpecResolver.comment_run rest <= Z.of_nat (List.length rest).
Proof.
  induction rest as [|b rest IH]; cbn -[Z.add Z.of_nat]; [lia|].
  destruct b; lia.
Qed.

(** The reconstructed single-step parser keeps the cursor inside the
    buffer and never moves it back. *)
Lemma spec_parser_cursor_contract (table : SpecResolver.grammar_table)
    (version : yp_pack_version) (variant : yp_pack_variant) (buffer : list byte)
    (pos : Z) (enc : yp_pack_encoding) :
  0 <= pos < RSTRING_LEN buffer ->
  parse_result (SpecResolver.yp_pack_parse table version variant buffer pos enc)
    = YP_PACK_OK ->
  pos <= out_format (SpecResolver.yp_pack_parse table version variant buffer pos enc)
      <= RSTRING_LEN buffer.
Proof.
  intros Hpos Hok.
  pose proof (spec_parser_progress table version variant buffer pos enc Hpos Hok) as Hlow.
  split; [lia|]. clear Hlow. revert Hok.
  unfold SpecResolver.yp_pack_parse.
  replace ((pos <? 0) || (RSTRING_LEN buffer <=? pos)) with false
    by (symmetry; apply orb_false_intro; [apply Z.ltb_ge | apply Z.leb_gt]; lia).
  destruct (skipn (Z.to_nat pos) buffer) as [|b rest] eqn:Hskip.
  { simpl. lia. }
  assert (Hlen : Z.of_nat (List.length rest) = RSTRING_LEN buffer - pos - 1).
  { apply (f_equal (@List.length byte)) in Hskip. rewrite length_skipn in Hskip.
    unfold RSTRING_LEN in *. simpl in Hskip. lia. }
  destruct (SpecResolver.is_blank b).
  { simpl. pose proof (blank_run_at_most rest). lia. }
  destruct (Byte.eqb b x23).
  { simpl. pose proof (comment_run_at_most rest). lia. }
  unfold SpecResolver.resolve_letter.
  destruct (table version b) as [e|]; [|discriminate].
  destruct (SpecResolver.valid_for variant e); [|discriminate].
  pose proof (modifiers_consumed_at_most e rest
                (SpecResolver.mkResolving 1 (SpecResolver.le_endian e) false
                   (SpecResolver.le_size e) (SpecResolver.le_length_type e)
                   (SpecResolver.le_length e) false)) as Hm.
  destruct (SpecResolver.modifiers e rest _) as [[| | | | | |k] rs];
    cbn [snd parse_result out_format SpecResolver.failed SpecResolver.rs_consumed] in *;
    try discriminate.
  intros _. lia.
Qed.

(** On the reconstructed single-step parser every call returns, with as
    much fuel as the format has bytes. *)
Lemma pack_parse_terminates (table : SpecResolver.grammar_table)
    (version_symbol variant_symbol format_string : VALUE) :
  exists o,
    pack_parse (SpecResolver.yp_pack_parse table) (format_length format_string)
      version_symbol variant_symbol format_string = Some o.
Proof.
  apply pack_parse_returns; [|lia].
  intros version variant buffer pos enc. apply spec_parser_progress.
Qed.

(** ** Fuel and the empty format *)

(** The fuel only bounds the number of iterations: two runs of the model
    on the same arguments that both finish give the same outcome. *)
Lemma pack_parse_fuel_agree (yp_pack_parse : yp_pack_parse_t) (fuel1 fuel2 : nat)
    (version_symbol variant_symbol format_string : VALUE) (o1 o2 : outcome Format) :
  pack_parse yp_pack_parse fuel1 version_symbol variant_symbol format_string = Some o1 ->
  pack_parse yp_pack_parse fuel2 version_symbol variant_symbol format_string = Some o2 ->
  o1 = o2.
Proof.
  unfold pack_parse.
  destruct (VALUE_eqb version_symbol v3_2_0_symbol); [|congruence].
  destruct (variant_of variant_symbol) as [variant|]; [|congruence].
  destruct (StringValue format_string) as [buffer| | |]; try congruence.
  apply loop_fuel_agree.
Qed.

(** C9.  The empty format with the supported version and either variant
    returns a Format with no Directive and [nil] for the encoding, with
    any fuel and whatever the single-step parser is: the loop body never
    runs. *)
Theorem empty_format_decodes_to_empty_stream (yp_pack_parse : yp_pack_parse_t) (fuel : nat)
    (variant_symbol : VALUE) :
  variant_symbol = pack_symbol \/ variant_symbol = unpack_symbol ->
  pack_parse yp_pack_parse fuel v3_2_0_symbol variant_symbol (RString [])
    = Some (Return (mkFormat [] Qnil)).
Proof.
  intros [-> | ->]; destruct fuel; reflexivity.
Qed.

Lemma empty_format_decodes_to_empty_stream_witness :
  parse_sample 0 v3_2_0_symbol unpack_symbol "" = Some (Return (mkFormat [] Qnil)).
Proof.
  apply (empty_format_decodes_to_empty_stream
           (SpecResolver.yp_pack_parse SpecResolver.sample_table) 0 unpack_symbol).
  right. reflexivity.
Defined.

(** ** Success at end of input *)



(** ** Spans *)

Lemma firstn_extend {A : Type} (l : list A) (s e : Z) :
  0 <= s <= e -> e <= Z.of_nat (List.length l) ->
  firstn (Z.to_nat s) l ++ firstn (Z.to_nat (e - s)) (skipn (Z.to_nat s) l)
  = firstn (Z.to_nat e) l.
Proof.
  intros Hs He.
  rewrite <- (firstn_skipn (Z.to_nat s) l) at 3.
  replace (Z.to_nat e) with (List.length (firstn (Z.to_nat s) l) + Z.to_nat (e - s))%nat.
  - now rewrite firstn_app_2.
  - rewrite length_firstn. lia.
Qed.

(** How a step can return a Format: the loop test fails, or the
    single-step parser reports the END type. *)
Lemma step_done_return (yp_pack_parse : yp_pack_parse_t)
    (version : yp_pack_version) (variant : yp_pack_variant)
    (version_symbol variant_symbol : VALUE) (buffer : list byte) (st : locals)
    (fmt : Format) :
  pack_parse_step yp_pack_parse version variant version_symbol variant_symbol buffer st
    = Done (Return fmt) ->
  let r := yp_pack_parse version variant buffer (format st) (encoding st) in
  (RSTRING_LEN buffer <= format st /\
   fmt = mkFormat (directives_array st) (pack_encoding_to_ruby (encoding st))) \/
  (format st < RSTRING_LEN buffer /\ parse_result r = YP_PACK_OK /\
   out_type r = YP_PACK_END /\
   fmt = mkFormat (directives_array st) (pack_encoding_to_ruby (out_encoding r))).
Proof.
  intros H r. unfold pack_parse_step, pack_parse_return in H. fold r in H.
  destruct (format st <? RSTRING_LEN buffer) eqn:Hlt.
  - apply Z.ltb_lt in Hlt. right.
    destruct (parse_result r) eqn:Hres; try discriminate.
    destruct (out_type r) eqn:Hty;
      try (destruct (rb_usascii_str_new _ _ _); discriminate).
    injection H as <-. auto.
  - apply Z.ltb_ge in Hlt. left. injection H as <-. auto.
Qed.

Section Spans.

Variable yp_pack_parse : yp_pack_parse_t.
Variables (version : yp_pack_version) (variant : yp_pack_variant).
Variables (version_symbol variant_symbol : VALUE).
Variable buffer : list byte.

(** The single-step parser reports the END type only at the end of the
    input (spec 4.1: "or signal end-of-input when the cursor reaches
    end"). *)
Hypothesis end_only_at_end :
  forall pos enc,
    0 <= pos < RSTRING_LEN buffer ->
    parse_result (yp_pack_parse version variant buffer pos enc) = YP_PACK_OK ->
    out_type (yp_pack_parse version variant buffer pos enc) <> YP_PACK_END.

Lemma tiled_step (st st' : locals) :
  tiled buffer st ->
  pack_parse_step yp_pack_parse version variant version_symbol variant_symbol buffer st
    = Scanning st' ->
  tiled buffer st'.
Proof.
  intros [Hrange Hcat] Hstep.
  apply step_scanning in Hstep. cbv zeta in Hstep.
  destruct Hstep as (_ & _ & _ & _ & _ & Hle & Hend & d & Hd & Hsrc & _).
  split; [lia|].
  rewrite Hd, map_app, concat_app, Hcat. simpl. rewrite app_nil_r, Hsrc.
  apply firstn_extend; [lia | exact Hend].
Qed.

Lemma tiled_done (st : locals) (fmt : Format) :
  tiled buffer st ->
  pack_parse_step yp_pack_parse version variant version_symbol variant_symbol buffer st
    = Done (Return fmt) ->
  List.concat (map d_source (f_directives fmt)) = buffer.
Proof.
  intros [Hrange Hcat] Hstep.
  apply step_done_return in Hstep. cbv zeta in Hstep.
  destruct Hstep as [[Hend ->] | (Hlt & Hok & Hty & _)].
  - simpl. rewrite Hcat. apply firstn_all2. unfold RSTRING_LEN in *. lia.
  - exfalso. apply (end_only_at_end (format st) (encoding st)); auto. lia.
Qed.

Lemma loop_tiles (fuel : nat) :
  forall st fmt,
    tiled buffer st ->
    pack_parse_loop yp_pack_parse version variant version_symbol variant_symbol buffer
      fuel st = Some (Return fmt) ->
    List.concat (map d_source (f_directives fmt)) = buffer.
Proof.
  induction fuel as [|fuel IH]; intros st fmt Hinv Hrun; simpl in Hrun;
    destruct (pack_parse_step _ _ _ _ _ _ st) as [st'|o] eqn:Hstep;
    try discriminate.
  - injection Hrun as ->. apply (tiled_done st fmt Hinv Hstep).
  - eapply IH; [eapply tiled_step; eauto | exact Hrun].
  - injection Hrun as ->. apply (tiled_done st fmt Hinv Hstep).
Qed.

End Spans.

(** C5.  With a single-step parser that keeps the contract of a scanner,
    that is, on success it leaves the cursor at or after where it was and
    inside the buffer (line 432 copies the span without any check of its
    own), and it reports the END type only at the end of the input, every
    call that returns a Format has tiled the input: the sources of its
    Directives, laid end to end in stream order, are the format string
    itself, so each span starts where the one before it ends and the span
    lengths add up to the input length. *)
Theorem spans_tile_the_input (yp_pack_parse : yp_pack_parse_t) (fuel : nat)
    (version_symbol variant_symbol : VALUE) (buffer : list byte) (fmt : Format) :
  (forall version variant pos enc,
      0 <= pos < RSTRING_LEN buffer ->
      parse_result (yp_pack_parse version variant buffer pos enc) = YP_PACK_OK ->
      pos <= out_format (yp_pack_parse version variant buffer pos enc)
          <= RSTRING_LEN buffer) ->
  (forall version variant pos enc,
      0 <= pos < RSTRING_LEN buffer ->
      parse_result (yp_pack_parse version variant buffer pos enc) = YP_PACK_OK ->
      out_type (yp_pack_parse version variant buffer pos enc) <> YP_PACK_END) ->
  pack_parse yp_pack_parse fuel version_symbol variant_symbol (RString buffer)
    = Some (Return fmt) ->
  List.concat (map d_source (f_directives fmt)) = buffer /\
  list_sum (span_lengths (f_directives fmt)) = List.length buffer.
Proof.
  intros Hcursor Hend Hrun.
  assert (Hcat : List.concat (map d_source (f_directives fmt)) = buffer).
  { unfold pack_parse in Hrun.
    destruct (VALUE_eqb version_symbol v3_2_0_symbol); [|discriminate].
    destruct (variant_of variant_symbol) as [variant|]; [|discriminate].
    simpl in Hrun.
    eapply loop_tiles; [apply Hend | | exact Hrun].
    split; simpl; [unfold RSTRING_LEN; lia | reflexivity]. }
  split; [exact Hcat|].
  unfold span_lengths.
  rewrite <- (map_map d_source (@List.length byte)), <- length_concat.
  now rewrite Hcat.
Qed.

(** The reconstructed single-step parser reports the END type only at the
    end of the input, on every table without a row of type END. *)
Lemma spec_parser_end_only_at_end (table : SpecResolver.grammar_table) :
  (forall version letter e, table version letter = Some e ->
                            SpecResolver.le_type e <> YP_PACK_END) ->
  forall version variant buffer pos enc,
    0 <= pos < RSTRING_LEN buffer ->
    parse_result (SpecResolver.yp_pack_parse table version variant buffer pos enc)
      = YP_PACK_OK ->
    out_type (SpecResolver.yp_pack_parse table version variant buffer pos enc)
      <> YP_PACK_END.
Proof.
  intros Htable version variant buffer pos enc Hpos.
  unfold SpecResolver.yp_pack_parse.
  replace ((pos <? 0) || (RSTRING_LEN buffer <=? pos)) with false
    by (symmetry; apply orb_false_intro; [apply Z.ltb_ge | apply Z.leb_gt]; lia).
  destruct (skipn (Z.to_nat pos) buffer) as [|b rest] eqn:Hskip.
  { apply (f_equal (@List.length byte)) in Hskip. rewrite length_skipn in Hskip.
    unfold RSTRING_LEN in Hpos. simpl in Hskip. lia. }
  destruct (SpecResolver.is_blank b); [simpl; discriminate|].
  destruct (Byte.eqb b x23); [simpl; discriminate|].
  unfold SpecResolver.resolve_letter.
  destruct (table version b) as [e|] eqn:Hrow; [|simpl; discriminate].
  destruct (SpecResolver.valid_for variant e); [|simpl; discriminate].
  destruct (SpecResolver.modifiers e rest _) as [[| | | | | |k] rs]; simpl;
    try discriminate.
  intros _. eapply Htable; eauto.
Qed.

Lemma sample_table_no_end (version : yp_pack_version) (letter : byte)
    (e : SpecResolver.letter_entry) :
  SpecResolver.sample_table version letter = Some e ->
  SpecResolver.le_type e <> YP_PACK_END.
Proof.
  destruct letter; simpl; try discriminate; intro H; injection H as <-; discriminate.
Qed.

Lemma spans_tile_the_input_witness :
  option_map (fun o => match o with
                       | Return fmt => List.concat (map d_source (f_directives fmt))
                       | _ => []
                       end)
    (parse_sample 5 v3_2_0_symbol pack_symbol "C3 S!<*  #hi")
  = Some (list_byte_of_string "C3 S!<*  #hi").
Proof.
  destruct (parse_sample 5 v3_2_0_symbol pack_symbol "C3 S!<*  #hi")
    as [[fmt|cls msg|msg|]|] eqn:E; try (vm_compute in E; discriminate E).
  simpl. f_equal.
  apply (spans_tile_the_input (SpecResolver.yp_pack_parse SpecResolver.sample_table) 5
           v3_2_0_symbol pack_symbol (list_byte_of_string "C3 S!<*  #hi") fmt).
  - intros version variant pos enc. apply spec_parser_cursor_contract.
  - intros version variant pos enc.
    apply spec_parser_end_only_at_end. exact sample_table_no_end.
  - exact E.
Defined.

(** ** The running encoding *)

Lemma forced_by_type (d : Directive) (type : yp_pack_type) (enc : yp_pack_encoding) :
  d_type d = pack_type_to_symbol type ->
  match forced_by d with Some forced => forced | None => enc end
  = SpecResolver.thread_encoding enc type.
Proof.
  unfold forced_by. intros ->. destruct type; reflexivity.
Qed.

Lemma thread_encoding_keeps_specified (enc : yp_pack_encoding) (type : yp_pack_type) :
  enc <> YP_PACK_ENCODING_START ->
  SpecResolver.thread_encoding enc type <> YP_PACK_ENCODING_START.
Proof.
  intro H. destruct type; simpl; auto; discriminate.
Qed.

Section Threading.

Variable yp_pack_parse : yp_pack_parse_t.
Variables (version : yp_pack_version) (variant : yp_pack_variant).
Variables (version_symbol variant_symbol : VALUE).
Variable buffer : list byte.

(** The single-step parser updates the running encoding as the
    Threader of the spec says. *)
Hypothesis threads :
  forall pos enc,
    parse_result (yp_pack_parse version variant buffer pos enc) = YP_PACK_OK ->
    out_encoding (yp_pack_parse version variant buffer pos enc)
    = SpecResolver.thread_encoding enc
        (out_type (yp_pack_parse version variant buffer pos enc)).

(** Its code, cursor and type do not depend on the running encoding. *)
Hypothesis encoding_blind :
  forall pos enc enc',
    parse_result (yp_pack_parse version variant buffer pos enc)
    = parse_result (yp_pack_parse version variant buffer pos enc') /\
    out_format (yp_pack_parse version variant buffer pos enc)
    = out_format (yp_pack_parse version variant buffer pos enc') /\
    out_type (yp_pack_parse version variant buffer pos enc)
    = out_type (yp_pack_parse version variant buffer pos enc').

Let step := pack_parse_step yp_pack_parse version variant version_symbol variant_symbol buffer.

Lemma threaded_step (st st' : locals) :
  encoding st = last_forced (rev (directives_array st)) ->
  step st = Scanning st' ->
  encoding st' = last_forced (rev (directives_array st')).
Proof.
  intros Hinv Hstep. apply step_scanning in Hstep. cbv zeta in Hstep.
  destruct Hstep as (_ & Hok & _ & _ & Henc & _ & _ & d & Hd & _ & Hty & _).
  rewrite Hd, rev_unit. simpl.
  rewrite (forced_by_type d _ (last_forced (rev (directives_array st))) Hty).
  rewrite Henc, (threads _ _ Hok), Hinv. reflexivity.
Qed.

Lemma threaded_done (st : locals) (fmt : Format) :
  encoding st = last_forced (rev (directives_array st)) ->
  step st = Done (Return fmt) ->
  f_encoding fmt = pack_encoding_to_ruby (last_forced (rev (f_directives fmt))).
Proof.
  intros Hinv Hstep. apply step_done_return in Hstep. cbv zeta in Hstep.
  destruct Hstep as [[_ ->] | (_ & Hok & Hty & ->)]; simpl.
  - now rewrite Hinv.
  - rewrite (threads _ _ Hok), Hty. simpl. now rewrite Hinv.
Qed.

Lemma loop_threads (fuel : nat) :
  forall st fmt,
    encoding st = last_forced (rev (directives_array st)) ->
    pack_parse_loop yp_pack_parse version variant version_symbol variant_symbol buffer
      fuel st = Some (Return fmt) ->
    f_encoding fmt = pack_encoding_to_ruby (last_forced (rev (f_directives fmt))).
Proof.
  induction fuel as [|fuel IH]; intros st fmt Hinv Hrun; simpl in Hrun; fold step in Hrun;
    destruct (step st) as [st'|o] eqn:Hstep; try discriminate.
  - injection Hrun as ->. apply (threaded_done st fmt Hinv Hstep).
  - eapply IH; [eapply threaded_step; eauto | exact Hrun].
  - injection Hrun as ->. apply (threaded_done st fmt Hinv Hstep).
Qed.

(** Once away from the start value, the running encoding stays away. *)
Lemma iterate_keeps_specified (n : nat) :
  forall st st',
    pack_parse_iterate yp_pack_parse version variant version_symbol variant_symbol buffer
      n st = Some st' ->
    encoding st <> YP_PACK_ENCODING_START ->
    encoding st' <> YP_PACK_ENCODING_START.
Proof.
  induction n as [|n IH]; intros st st' Hit Hspec; simpl in Hit.
  - now injection Hit as <-.
  - fold step in Hit. destruct (step st) as [st1|] eqn:Hstep; [|discriminate].
    apply (IH st1 st' Hit).
    apply step_scanning in Hstep. cbv zeta in Hstep.
    destruct Hstep as (_ & Hok & _ & _ & Henc & _).
    rewrite Henc, (threads _ _ Hok).
    now apply thread_encoding_keeps_specified.
Qed.

(** An exception of a step is raised whatever the running encoding is. *)
Lemma raise_ignores_encoding (st : locals) (enc' : yp_pack_encoding)
    (cls : exception_class) (msg : string) :
  step st = Done (Raise cls msg) ->
  step (mkLocals (format st) enc' (directives_array st)) = Done (Raise cls msg).
Proof.
  unfold step, pack_parse_step, pack_parse_return. simpl.
  destruct (format st <? RSTRING_LEN buffer); [|discriminate].
  destruct (encoding_blind (format st) (encoding st) enc') as (Hc & Hf & Ht).
  rewrite <- Hc, <- Hf, <- Ht.
  destruct (parse_result _); auto; try discriminate.
  destruct (rb_usascii_str_new _ _ _); destruct (out_type _); auto; discriminate.
Qed.

End Threading.

Lemma spec_parser_threads (table : SpecResolver.grammar_table)
    (version : yp_pack_version) (variant : yp_pack_variant) (buffer : list byte)
    (pos : Z) (enc : yp_pack_encoding) :
  parse_result (SpecResolver.yp_pack_parse table version variant buffer pos enc)
    = YP_PACK_OK ->
  out_encoding (SpecResolver.yp_pack_parse table version variant buffer pos enc)
  = SpecResolver.thread_encoding enc
      (out_type (SpecResolver.yp_pack_parse table version variant buffer pos enc)).
Proof.
  unfold SpecResolver.yp_pack_parse.
  destruct (_ || _); [reflexivity|].
  destruct (skipn _ _) as [|b rest]; [reflexivity|].
  destruct (SpecResolver.is_blank b); [reflexivity|].
  destruct (Byte.eqb b x23); [reflexivity|].
  unfold SpecResolver.resolve_letter.
  destruct (table version b) as [e|]; [|discriminate].
  destruct (SpecResolver.valid_for variant e); [|discriminate].
  destruct (SpecResolver.modifiers e rest _) as [[| | | | | |k] rs]; simpl;
    try discriminate.
  reflexivity.
Qed.

Lemma spec_parser_encoding_blind (table : SpecResolver.grammar_table)
    (version : yp_pack_version) (variant : yp_pack_variant) (buffer : list byte)
    (pos : Z) (enc enc' : yp_pack_encoding) :
  parse_result (SpecResolver.yp_pack_parse table version variant buffer pos enc)
  = parse_result (SpecResolver.yp_pack_parse table version variant buffer pos enc') /\
  out_format (SpecResolver.yp_pack_parse table version variant buffer pos enc)
  = out_format (SpecResolver.yp_pack_parse table version variant buffer pos enc') /\
  out_type (SpecResolver.yp_pack_parse table version variant buffer pos enc)
  = out_type (SpecResolver.yp_pack_parse table version variant buffer pos enc').
Proof.
  unfold SpecResolver.yp_pack_parse.
  destruct (_ || _); [auto|].
  destruct (skipn _ _) as [|b rest]; [auto|].
  destruct (SpecResolver.is_blank b); [auto|].
  destruct (Byte.eqb b x23); [auto|].
  unfold SpecResolver.resolve_letter.
  destruct (table version b) as [e|]; [|auto].
  destruct (SpecResolver.valid_for variant e); [|auto].
  destruct (SpecResolver.modifiers e rest _) as [[| | | | | |k] rs]; simpl; auto.
Qed.

(** C7.  With the single-step parser threading the encoding as the spec
    says (a UTF8 directive forces UTF-8, a BER directive forces
    ASCII-8BIT, nothing else touches it), on any directive table:
    the encoding of a returned Format is the one forced by the last
    forcing Directive of the stream, [nil] when there is none; an
    exception a step raises is raised whatever the running encoding is,
    so none is due to it; and a running encoding that has left the start
    value never comes back to it in later iterations. *)
Theorem last_forcing_directive_sets_encoding (table : SpecResolver.grammar_table)
    (variant_symbol : VALUE) (variant : yp_pack_variant) (buffer : list byte) :
  variant_of variant_symbol = Some variant ->
  let yp := SpecResolver.yp_pack_parse table in
  (forall fuel fmt,
      pack_parse yp fuel v3_2_0_symbol variant_symbol (RString buffer) = Some (Return fmt) ->
      f_encoding fmt = pack_encoding_to_ruby (last_forced (rev (f_directives fmt)))) /\
  (forall st enc' cls msg,
      pack_parse_step yp YP_PACK_VERSION_3_2_0 variant v3_2_0_symbol variant_symbol buffer st
        = Done (Raise cls msg) ->
      pack_parse_step yp YP_PACK_VERSION_3_2_0 variant v3_2_0_symbol variant_symbol buffer
        (mkLocals (format st) enc' (directives_array st)) = Done (Raise cls msg)) /\
  (forall n m st st',
      pack_parse_iterate yp YP_PACK_VERSION_3_2_0 variant v3_2_0_symbol variant_symbol buffer
        n entry = Some st ->
      pack_parse_iterate yp YP_PACK_VERSION_3_2_0 variant v3_2_0_symbol variant_symbol buffer
        m st = Some st' ->
      encoding st <> YP_PACK_ENCODING_START ->
      encoding st' <> YP_PACK_ENCODING_START).
Proof.
  intros Hv yp. split; [|split].
  - intros fuel fmt Hrun. rewrite (pack_parse_valid _ _ _ _ _ Hv) in Hrun.
    eapply loop_threads; [| | exact Hrun].
    + intros pos enc. apply spec_parser_threads.
    + reflexivity.
  - intros st enc' cls msg. apply raise_ignores_encoding.
    intros pos enc enc1. apply spec_parser_encoding_blind.
  - intros n m st st' _ Hit. eapply iterate_keeps_specified; [|exact Hit].
    intros pos enc. apply spec_parser_threads.
Qed.

Lemma last_forcing_directive_sets_encoding_witness :
  option_map (fun o => match o with
                       | Return fmt => f_encoding fmt
                       | _ => Qnil
                       end)
    (parse_sample 4 v3_2_0_symbol pack_symbol "wU C")
  = Some (Encoding rb_utf8).
Proof.
  destruct (parse_sample 4 v3_2_0_symbol pack_symbol "wU C")
    as [[fmt|cls msg|msg|]|] eqn:E; try (vm_compute in E; discriminate E).
  simpl. f_equal.
  rewrite (proj1 (last_forcing_directive_sets_encoding SpecResolver.sample_table
                    pack_symbol YP_PACK_VARIANT_PACK (list_byte_of_string "wU C") eq_refl)
             4%nat fmt E).
  vm_compute in E. injection E as <-. reflexivity.
Defined.

(** * Further properties of the driver *)

(** The locals a step leaves when the loop goes on, field by field. *)
Lemma step_scanning_exact (yp_pack_parse : yp_pack_parse_t)
    (version : yp_pack_version) (variant : yp_pack_variant)
    (version_symbol variant_symbol : VALUE) (buffer : list byte) (st st' : locals) :
  pack_parse_step yp_pack_parse version variant version_symbol variant_symbol buffer st
    = Scanning st' ->
  let r := yp_pack_parse version variant buffer (format st) (encoding st) in
  st' = mkLocals (out_format r) (out_encoding r)
          (directives_array st ++
           [mkDirective version_symbol variant_symbol
              (firstn (Z.to_nat (out_format r - format st))
                 (skipn (Z.to_nat (format st)) buffer))
              (pack_type_to_symbol (out_type r))
              (pack_signed_to_symbol (out_signed_type r))
              (pack_endian_to_symbol (out_endian r))
              (pack_size_to_symbol (out_size r))
              (pack_length_type_to_symbol (out_length_type r))
              (LONG2NUM (out_length r mod 2 ^ 64))]).
Proof.
  intros H r. unfold pack_parse_step in H. fold r in H.
  destruct (format st <? RSTRING_LEN buffer); [|discriminate].
  destruct (parse_result r); try discriminate.
  destruct (rb_usascii_str_new buffer (format st) (out_format r - format st))
    as [source| | |] eqn:Hsrc;
    try (destruct (out_type r); discriminate).
  assert (Hsource : source = firstn (Z.to_nat (out_format r - format st))
                               (skipn (Z.to_nat (format st)) buffer)).
  { unfold rb_usascii_str_new in Hsrc.
    destruct (_ <? 0); [discriminate|]. destruct (_ || _); [discriminate|].
    now injection Hsrc as <-. }
  subst source.
  destruct (out_type r); try discriminate; injection H as <-; reflexivity.
Qed.

(** A property every appended Directive has holds of every Directive of a
    returned Format. *)
Lemma loop_forall (yp_pack_parse : yp_pack_parse_t)
    (version : yp_pack_version) (variant : yp_pack_variant)
    (version_symbol variant_symbol : VALUE) (buffer : list byte)
    (P : Directive -> Prop) :
  (forall st st',
      pack_parse_step yp_pack_parse version variant version_symbol variant_symbol buffer st
        = Scanning st' ->
      exists d, directives_array st' = directives_array st ++ [d] /\ P d) ->
  forall fuel st fmt,
    Forall P (directives_array st) ->
    pack_parse_loop yp_pack_parse version variant version_symbol variant_symbol buffer
      fuel st = Some (Return fmt) ->
    Forall P (f_directives fmt).
Proof.
  intros Hstep fuel.
  assert (Hdone : forall st fmt,
             Forall P (directives_array st) ->
             pack_parse_step yp_pack_parse version variant version_symbol variant_symbol
               buffer st = Done (Return fmt) ->
             Forall P (f_directives fmt)).
  { intros st fmt HP H. apply step_done_return in H. cbv zeta in H.
    destruct H as [[_ ->] | (_ & _ & _ & ->)]; exact HP. }
  induction fuel as [|fuel IH]; intros st fmt HP Hrun; simpl in Hrun;
    destruct (pack_parse_step _ _ _ _ _ _ st) as [st'|o] eqn:E; try discriminate.
  - injection Hrun as ->. eapply Hdone; eauto.
  - apply (IH st' fmt); [|exact Hrun].
    destruct (Hstep _ _ E) as (d & -> & Hd).
    apply Forall_app. split; [exact HP | constructor; [exact Hd | constructor]].
  - injection Hrun as ->. eapply Hdone; eauto.
Qed.

(** What decodes successfully when the call's arguments are arbitrary. *)
Lemma pack_parse_return_inv (yp_pack_parse : yp_pack_parse_t) (fuel : nat)
    (version_symbol variant_symbol format_string : VALUE) (fmt : Format) :
  pack_parse yp_pack_parse fuel version_symbol variant_symbol format_string
    = Some (Return fmt) ->
  exists variant buffer,
    version_symbol = v3_2_0_symbol /\
    variant_of variant_symbol = Some variant /\
    format_string = RString buffer /\
    pack_parse_loop yp_pack_parse YP_PACK_VERSION_3_2_0 variant version_symbol
      variant_symbol buffer fuel entry = Some (Return fmt).
Proof.
  unfold pack_parse.
  destruct (VALUE_eqb version_symbol v3_2_0_symbol) eqn:Ev; [|discriminate].
  apply VALUE_eqb_eq in Ev.
  destruct (variant_of variant_symbol) as [variant|] eqn:Evar; [|discriminate].
  destruct format_string as [|name|k|buffer|enc]; simpl; try discriminate.
  intro H. exists variant, buffer. auto.
Qed.

(** X1.  With a single-step parser that, on success, leaves the cursor
    at or after where it was and inside the buffer, and that may report
    the END type anywhere, the sources of the Directives of a returned
    Format, laid end to end, are an initial segment of the format string:
    the driver never skips a byte between two spans, never copies a byte
    twice and never reorders spans. *)
Theorem sources_form_a_prefix (yp_pack_parse : yp_pack_parse_t) (fuel : nat)
    (version_symbol variant_symbol : VALUE) (buffer : list byte) (fmt : Format) :
  (forall version variant pos enc,
      0 <= pos < RSTRING_LEN buffer ->
      parse_result (yp_pack_parse version variant buffer pos enc) = YP_PACK_OK ->
      pos <= out_format (yp_pack_parse version variant buffer pos enc)
          <= RSTRING_LEN buffer) ->
  pack_parse yp_pack_parse fuel version_symbol variant_symbol (RString buffer)
    = Some (Return fmt) ->
  exists k : nat,
    (k <= List.length buffer)%nat /\
    List.concat (map d_source (f_directives fmt)) = firstn k buffer.
Proof.
  intros Hcursor Hrun. apply pack_parse_return_inv in Hrun.
  destruct Hrun as (variant & buffer' & _ & _ & Hbuf & Hloop).
  injection Hbuf as <-.
  assert (Hgen : forall fuel st,
             tiled buffer st ->
             pack_parse_loop yp_pack_parse YP_PACK_VERSION_3_2_0 variant version_symbol
               variant_symbol buffer fuel st = Some (Return fmt) ->
             exists k : nat,
               (k <= List.length buffer)%nat /\
               List.concat (map d_source (f_directives fmt)) = firstn k buffer).
  { assert (Hdone : forall st,
               tiled buffer st ->
               pack_parse_step yp_pack_parse YP_PACK_VERSION_3_2_0 variant version_symbol
                 variant_symbol buffer st = Done (Return fmt) ->
               exists k : nat,
                 (k <= List.length buffer)%nat /\
                 List.concat (map d_source (f_directives fmt)) = firstn k buffer).
    { intros st [Hrange Hcat] H. apply step_done_return in H. cbv zeta in H.
      exists (Z.to_nat (format st)).
      split; [unfold RSTRING_LEN in Hrange; lia|].
      destruct H as [[_ ->] | (_ & _ & _ & ->)]; exact Hcat. }
    clear Hloop fuel. intro fuel.
    induction fuel as [|fuel IH]; intros st Hinv Hrun; simpl in Hrun;
      destruct (pack_parse_step _ _ _ _ _ _ st) as [st'|o] eqn:E; try discriminate.
    - injection Hrun as ->. eauto.
    - apply (IH st'); [|exact Hrun]. eapply tiled_step; eauto.
    - injection Hrun as ->. eauto. }
  apply (Hgen fuel entry); [|exact Hloop].
  split; simpl; [unfold RSTRING_LEN; lia | reflexivity].
Qed.

Lemma sources_form_a_prefix_witness :
  exists fmt,
    parse_sample 3 v3_2_0_symbol pack_symbol "C3 U*" = Some (Return fmt) /\
    exists k : nat,
      (k <= 5)%nat /\
      List.concat (map d_source (f_directives fmt)) = firstn k (list_byte_of_string "C3 U*").
Proof.
  eexists. split; [reflexivity|].
  apply (sources_form_a_prefix (SpecResolver.yp_pack_parse SpecResolver.sample_table) 3
           v3_2_0_symbol pack_symbol (list_byte_of_string "C3 U*")).
  - intros version variant pos enc. apply spec_parser_cursor_contract.
  - reflexivity.
Defined.

(** X2.  Every Directive of a returned Format carries the version symbol
    and the variant symbol of the call, which are [:v3_2_0] and one of
    [:pack] and [:unpack]. *)
Theorem directives_carry_call_symbols (yp_pack_parse : yp_pack_parse_t) (fuel : nat)
    (version_symbol variant_symbol format_string : VALUE) (fmt : Format) :
  pack_parse yp_pack_parse fuel version_symbol variant_symbol format_string
    = Some (Return fmt) ->
  version_symbol = v3_2_0_symbol /\
  (variant_symbol = pack_symbol \/ variant_symbol = unpack_symbol) /\
  Forall (fun d => d_version d = version_symbol /\ d_variant d = variant_symbol)
    (f_directives fmt).
Proof.
  intro Hrun. apply pack_parse_return_inv in Hrun.
  destruct Hrun as (variant & buffer & Hv & Hvar & _ & Hloop).
  split; [exact Hv|]. split.
  - unfold variant_of in Hvar.
    destruct (VALUE_eqb variant_symbol pack_symbol) eqn:E1.
    + left. now apply VALUE_eqb_eq.
    + destruct (VALUE_eqb variant_symbol unpack_symbol) eqn:E2; [|discriminate].
      right. now apply VALUE_eqb_eq.
  - eapply loop_forall; [| |exact Hloop]; [|constructor].
    intros st st' Hstep. apply step_scanning_exact in Hstep. cbv zeta in Hstep.
    subst st'. simpl. eexists. split; [reflexivity|]. simpl. auto.
Qed.

Lemma directives_carry_call_symbols_witness :
  exists fmt,
    parse_sample 2 v3_2_0_symbol unpack_symbol "a4C" = Some (Return fmt) /\
    Forall (fun d => d_version d = v3_2_0_symbol /\ d_variant d = unpack_symbol)
      (f_directives fmt).
Proof.
  eexists. split; [reflexivity|].
  apply (directives_carry_call_symbols
           (SpecResolver.yp_pack_parse SpecResolver.sample_table) 2
           v3_2_0_symbol unpack_symbol (RString (list_byte_of_string "a4C"))).
  reflexivity.
Defined.





(** X4.  [rb_bug] is reached only through the [default] arm of the
    switch: with a single-step parser that returns the six codes the
    switch names and no other, no call ends in [rb_bug], whatever its
    arguments. *)
Theorem listed_codes_never_reach_rb_bug (yp_pack_parse : yp_pack_parse_t) (fuel : nat)
    (version_symbol variant_symbol format_string : VALUE) (msg : string) :
  (forall version variant buffer pos enc code,
      parse_result (yp_pack_parse version variant buffer pos enc)
      <> YP_PACK_RESULT_OTHER code) ->
  pack_parse yp_pack_parse fuel version_symbol variant_symbol format_string
  <> Some (Bug msg).
Proof.
  intros Hcodes. unfold pack_parse.
  destruct (VALUE_eqb version_symbol v3_2_0_symbol); [|discriminate].
  destruct (variant_of variant_symbol) as [variant|]; [|discriminate].
  destruct format_string as [|name|k|buffer|enc]; simpl; try discriminate.
  generalize entry. induction fuel as [|fuel IH]; intros st Hrun; simpl in Hrun;
    destruct (pack_parse_step _ _ _ _ _ _ st) as [st'|o] eqn:E;
    try discriminate; try (eapply IH; eassumption);
    injection Hrun as ->; unfold pack_parse_step, pack_parse_return in E;
    (destruct (format st <? RSTRING_LEN buffer); [|discriminate]);
    (destruct (parse_result _) eqn:Hres; try discriminate;
     [ unfold rb_usascii_str_new in E;
       destruct (_ <? 0); [destruct (out_type _); discriminate|];
       destruct (_ || _); destruct (out_type _); discriminate
     | eapply Hcodes; eauto ]).
Qed.

Lemma spec_parser_codes_listed (table : SpecResolver.grammar_table)
    (version : yp_pack_version) (variant : yp_pack_variant) (buffer : list byte)
    (pos : Z) (enc : yp_pack_encoding) (code : Z) :
  parse_result (SpecResolver.yp_pack_parse table version variant buffer pos enc)
  <> YP_PACK_RESULT_OTHER code.
Proof.
  unfold SpecResolver.yp_pack_parse.
  destruct (_ || _); [discriminate|].
  destruct (skipn _ _) as [|b rest]; [discriminate|].
  destruct (SpecResolver.is_blank b); [discriminate|].
  destruct (Byte.eqb b x23); [discriminate|].
  unfold SpecResolver.resolve_letter.
  destruct (table version b) as [e|]; [|discriminate].
  destruct (SpecResolver.valid_for variant e); [|discriminate].
  assert (Hmod : forall rest rs,
             fst (SpecResolver.modifiers e rest rs) <> YP_PACK_RESULT_OTHER code).
  { clear rest. induction rest as [|c rest IH]; intro rs; simpl; [discriminate|].
    assert (Hendian : forall wanted,
               fst match SpecResolver.apply_endian e wanted rs with
                   | (YP_PACK_OK, rs') => SpecResolver.modifiers e rest rs'
                   | failed => failed
                   end <> YP_PACK_RESULT_OTHER code).
    { intro wanted. unfold SpecResolver.apply_endian.
      destruct (SpecResolver.le_endian_modifier e).
      - destruct (SpecResolver.rs_endian_given rs); [discriminate | apply IH].
      - destruct (SpecResolver.le_endian e), wanted; try discriminate; apply IH. }
    destruct (SpecResolver.digit_of_byte c) as [d|].
    - destruct (SpecResolver.le_count e); [|discriminate].
      destruct (UINT64_MAX <? _); [discriminate | apply IH].
    - destruct c; try discriminate; try apply Hendian.
      + destruct (SpecResolver.le_bang e); [apply IH | discriminate].
      + destruct (SpecResolver.le_wildcard e); [apply IH | discriminate]. }
  specialize (Hmod rest
                (SpecResolver.mkResolving 1 (SpecResolver.le_endian e) false
                   (SpecResolver.le_size e) (SpecResolver.le_length_type e)
                   (SpecResolver.le_length e) false)).
  destruct (SpecResolver.modifiers e rest _) as [[| | | | | |k] rs]; simpl in *;
    try discriminate.
  congruence.
Qed.

Lemma listed_codes_never_reach_rb_bug_witness :
  parse_sample 3 v3_2_0_symbol pack_symbol "C S<>" <> Some (Bug "parse result").
Proof.
  apply (listed_codes_never_reach_rb_bug
           (SpecResolver.yp_pack_parse SpecResolver.sample_table) 3
           v3_2_0_symbol pack_symbol (RString (list_byte_of_string "C S<>"))).
  intros version variant buffer pos enc code. apply spec_parser_codes_listed.
Defined.



(** X6.  With a single-step parser whose resolved spans are never empty,
    a returned Format has at most as many Directives as the format string
    has bytes. *)
Theorem no_more_directives_than_bytes (yp_pack_parse : yp_pack_parse_t) (fuel : nat)
    (version_symbol variant_symbol : VALUE) (buffer : list byte) (fmt : Format) :
  (forall version variant pos enc,
      0 <= pos < RSTRING_LEN buffer ->
      parse_result (yp_pack_parse version variant buffer pos enc) = YP_PACK_OK ->
      pos < out_format (yp_pack_parse version variant buffer pos enc)) ->
  pack_parse yp_pack_parse fuel version_symbol variant_symbol (RString buffer)
    = Some (Return fmt) ->
  (List.length (f_directives fmt) <= List.length buffer)%nat.
Proof.
  intros Hprogress Hrun. apply pack_parse_return_inv in Hrun.
  destruct Hrun as (variant & buffer' & _ & _ & Hbuf & Hloop).
  injection Hbuf as <-.
  assert (Hgen : forall fuel st,
             0 <= format st <= RSTRING_LEN buffer ->
             Z.of_nat (List.length (directives_array st)) <= format st ->
             pack_parse_loop yp_pack_parse YP_PACK_VERSION_3_2_0 variant version_symbol
               variant_symbol buffer fuel st = Some (Return fmt) ->
             Z.of_nat (List.length (f_directives fmt)) <= RSTRING_LEN buffer).
  { assert (Hdone : forall st,
               0 <= format st <= RSTRING_LEN buffer ->
               Z.of_nat (List.length (directives_array st)) <= format st ->
               pack_parse_step yp_pack_parse YP_PACK_VERSION_3_2_0 variant version_symbol
                 variant_symbol buffer st = Done (Return fmt) ->
               Z.of_nat (List.length (f_directives fmt)) <= RSTRING_LEN buffer).
    { intros st Hrange Hcount H. apply step_done_return in H. cbv zeta in H.
      destruct H as [[_ ->] | (_ & _ & _ & ->)]; simpl; lia. }
    clear Hloop fuel. intro fuel.
    induction fuel as [|fuel IH]; intros st Hrange Hcount Hrun; simpl in Hrun;
      destruct (pack_parse_step _ _ _ _ _ _ st) as [st'|o] eqn:E; try discriminate.
    - injection Hrun as ->. eauto.
    - apply step_scanning in E. cbv zeta in E.
      destruct E as (Hlt & Hok & _ & Hfmt & _ & _ & Hend & d & Hd & _).
      pose proof (Hprogress YP_PACK_VERSION_3_2_0 variant (format st) (encoding st)
                    ltac:(lia) Hok) as Hadv.
      apply (IH st'); [lia | | exact Hrun].
      rewrite Hd, length_app. simpl. lia.
    - injection Hrun as ->. eauto. }
  specialize (Hgen fuel entry). unfold RSTRING_LEN in Hgen. simpl in Hgen.
  apply Nat2Z.inj_le. apply Hgen; [lia | lia | exact Hloop].
Qed.

Lemma no_more_directives_than_bytes_witness :
  exists fmt,
    parse_sample 4 v3_2_0_symbol pack_symbol "C Uw" = Some (Return fmt) /\
    (List.length (f_directives fmt) <= 4)%nat.
Proof.
  eexists. split; [reflexivity|].
  apply (no_more_directives_than_bytes
           (SpecResolver.yp_pack_parse SpecResolver.sample_table) 4
           v3_2_0_symbol pack_symbol (list_byte_of_string "C Uw")).
  - intros version variant pos enc. apply spec_parser_progress.
  - reflexivity.
Defined.

(** X7.  The length a Directive reports is the length the single-step
    parser resolved exactly when that length is below [2^63]: an appended
    Directive holds [LONG2NUM] of the 64-bit length, which is the length
    itself below [2^63] and the length less [2^64] from there on. *)
Theorem reported_length_exact_below_2_63 (yp_pack_parse : yp_pack_parse_t)
    (version : yp_pack_version) (variant : yp_pack_variant)
    (version_symbol variant_symbol : VALUE) (buffer : list byte) (st st' : locals) :
  pack_parse_step yp_pack_parse version variant version_symbol variant_symbol buffer st
    = Scanning st' ->
  let length := out_length (yp_pack_parse version variant buffer (format st) (encoding st)) in
  0 <= length <= UINT64_MAX ->
  exists d,
    directives_array st' = directives_array st ++ [d] /\
    d_length d = Integer (if length <? 2 ^ 63 then length else length - 2 ^ 64) /\
    (d_length d = Integer length <-> length < 2 ^ 63).
Proof.
  intros Hstep length Hrange.
  apply step_scanning_exact in Hstep. cbv zeta in Hstep. subst st'.
  cbn [directives_array]. eexists. split; [reflexivity|].
  cbn [d_length]. fold length. rewrite (LONG2NUM_uint64 length Hrange).
  split; [reflexivity|].
  destruct (length <? 2 ^ 63) eqn:E.
  - apply Z.ltb_lt in E. split; [intros _; exact E | reflexivity].
  - apply Z.ltb_ge in E. split; [|lia].
    intro H. injection H as H. lia.
Qed.

Lemma reported_length_exact_below_2_63_witness :
  exists d,
    [mkDirective v3_2_0_symbol pack_symbol (list_byte_of_string "a300")
       (Symbol "STRING_NULL_PADDED") (Symbol "SIGNED_NA") (Symbol "ENDIAN_NA")
       (Symbol "SIZE_8") (Symbol "LENGTH_FIXED") (Integer 300)] = [d] /\
    d_length d = Integer 300.
Proof.
  destruct (reported_length_exact_below_2_63
              (SpecResolver.yp_pack_parse SpecResolver.sample_table)
              YP_PACK_VERSION_3_2_0 YP_PACK_VARIANT_PACK v3_2_0_symbol pack_symbol
              (list_byte_of_string "a300") entry
              (mkLocals 4 YP_PACK_ENCODING_START
                 [mkDirective v3_2_0_symbol pack_symbol (list_byte_of_string "a300")
                    (Symbol "STRING_NULL_PADDED") (Symbol "SIGNED_NA") (Symbol "ENDIAN_NA")
                    (Symbol "SIZE_8") (Symbol "LENGTH_FIXED") (Integer 300)]))
    as (d & Hd & Hlen & _).
  - reflexivity.
  - vm_compute. split; discriminate.
  - exists d. split; [exact Hd | exact Hlen].
Defined.

(** X8.  When, after [n] spans that resolved, the single-step parser
    answers OK with the END type inside the buffer, the driver leaves the
    loop at once: the call returns the [n] Directives built so far with
    the encoding that call left, and the bytes from the cursor on are not
    decoded. *)
Theorem end_type_stops_the_scan (yp_pack_parse : yp_pack_parse_t)
    (variant_symbol : VALUE) (variant : yp_pack_variant) (buffer : list byte)
    (n fuel : nat) (st : locals) :
  variant_of variant_symbol = Some variant ->
  pack_parse_iterate yp_pack_parse YP_PACK_VERSION_3_2_0 variant v3_2_0_symbol variant_symbol
    buffer n entry = Some st ->
  format st < RSTRING_LEN buffer ->
  let r := yp_pack_parse YP_PACK_VERSION_3_2_0 variant buffer (format st) (encoding st) in
  parse_result r = YP_PACK_OK ->
  out_type r = YP_PACK_END ->
  (n <= fuel)%nat ->
  pack_parse yp_pack_parse fuel v3_2_0_symbol variant_symbol (RString buffer)
    = Some (Return (mkFormat (directives_array st) (pack_encoding_to_ruby (out_encoding r)))) /\
  List.length (directives_array st) = n.
Proof.
  intros Hv Hit Hlt r Hok Hend Hle. split.
  - eapply pack_parse_done; eauto.
    unfold pack_parse_step. fold r.
    apply Z.ltb_lt in Hlt. now rewrite Hlt, Hok, Hend.
  - destruct (iterate_directives_count _ _ _ _ _ _ _ _ _ Hit) as (l & Hl & Hn).
    rewrite Hl. exact Hn.
Qed.

Lemma end_type_stops_the_scan_witness :
  pack_parse
    (fun _ _ _ pos enc =>
       mkOut YP_PACK_OK pos YP_PACK_END YP_PACK_SIGNED_NA YP_PACK_ENDIAN_NA YP_PACK_SIZE_NA
         YP_PACK_LENGTH_NA 0 YP_PACK_ENCODING_US_ASCII)
    0 v3_2_0_symbol pack_symbol (RString (list_byte_of_string "C3"))
  = Some (Return (mkFormat [] (Encoding rb_usascii))).
Proof.
  apply (proj1 (end_type_stops_the_scan
                  (fun _ _ _ pos enc =>
                     mkOut YP_PACK_OK pos YP_PACK_END YP_PACK_SIGNED_NA YP_PACK_ENDIAN_NA
                       YP_PACK_SIZE_NA YP_PACK_LENGTH_NA 0 YP_PACK_ENCODING_US_ASCII)
                  pack_symbol YP_PACK_VARIANT_PACK (list_byte_of_string "C3") 0 0 entry
                  eq_refl eq_refl ltac:(vm_compute; reflexivity) eq_refl eq_refl (le_n 0))).
Defined.

(** * The converters *)

(** X9.  The type symbols identify the types: two types with the same
    symbol are the same type, and the only type without a symbol ([nil])
    is END. *)
Theorem pack_type_to_symbol_identifies_type :
  (forall t1 t2, pack_type_to_symbol t1 = pack_type_to_symbol t2 -> t1 = t2) /\
  (forall t, pack_type_to_symbol t = Qnil <-> t = YP_PACK_END).
Proof.
  split.
  - intros t1 t2. destruct t1; destruct t2; simpl; intro H;
      solve [reflexivity | discriminate H].
  - intro t. split.
    + destruct t; simpl; intro H; solve [reflexivity | discriminate H].
    + intros ->. reflexivity.
Qed.

Lemma pack_type_to_symbol_identifies_type_witness :
  YP_PACK_BER = YP_PACK_BER /\ YP_PACK_END = YP_PACK_END.
Proof.
  split.
  - apply (proj1 pack_type_to_symbol_identifies_type YP_PACK_BER YP_PACK_BER).
    reflexivity.
  - apply (proj1 (proj2 pack_type_to_symbol_identifies_type YP_PACK_END)).
    reflexivity.
Defined.

(** X10.  The symbols of signedness, endianness, size and length type
    identify the enum value they come from, and none of these four
    converters returns [nil] on a value of its enum. *)
Theorem modifier_symbols_identify_values :
  (forall a b, pack_signed_to_symbol a = pack_signed_to_symbol b -> a = b) /\
  (forall a b, pack_endian_to_symbol a = pack_endian_to_symbol b -> a = b) /\
  (forall a b, pack_size_to_symbol a = pack_size_to_symbol b -> a = b) /\
  (forall a b, pack_length_type_to_symbol a = pack_length_type_to_symbol b -> a = b) /\
  (forall a, is_symbol (pack_signed_to_symbol a) = true) /\
  (forall a, is_symbol (pack_endian_to_symbol a) = true) /\
  (forall a, is_symbol (pack_size_to_symbol a) = true) /\
  (forall a, is_symbol (pack_length_type_to_symbol a) = true).
Proof.
  repeat split;
    try (intros a b; destruct a; destruct b; simpl; intro H;
         solve [reflexivity | discriminate H]);
    intro a; destruct a; reflexivity.
Qed.

Lemma modifier_symbols_identify_values_witness :
  YP_PACK_SIZE_P = YP_PACK_SIZE_P.
Proof.
  apply (proj1 (proj2 (proj2 modifier_symbols_identify_values))
           YP_PACK_SIZE_P YP_PACK_SIZE_P).
  reflexivity.
Defined.

(** X11.  The encoding of a Format is [nil] exactly for the start value
    of the running encoding; the three other values give three different
    Encoding objects. *)
Theorem pack_encoding_to_ruby_nil_iff_start :
  (forall enc, pack_encoding_to_ruby enc = Qnil <-> enc = YP_PACK_ENCODING_START) /\
  (forall a b, pack_encoding_to_ruby a = pack_encoding_to_ruby b -> a = b) /\
  (forall enc, enc <> YP_PACK_ENCODING_START ->
               exists e, pack_encoding_to_ruby enc = Encoding e).
Proof.
  split; [|split].
  - intro enc. split.
    + destruct enc; simpl; intro H; solve [reflexivity | discriminate H].
    + intros ->. reflexivity.
  - intros a b. destruct a; destruct b; simpl; intro H;
      solve [reflexivity | discriminate H].
  - intros enc Hne. destruct enc; simpl; eauto. contradiction.
Qed.

Lemma pack_encoding_to_ruby_nil_iff_start_witness :
  exists e, pack_encoding_to_ruby YP_PACK_ENCODING_UTF_8 = Encoding e.
Proof.
  apply (proj2 (proj2 pack_encoding_to_ruby_nil_iff_start) YP_PACK_ENCODING_UTF_8).
  discriminate.
Defined.

(** * Loading a file *)

(** X12.  [source_file_load] reports a failure exactly when [open] or
    [fstat] fails.  The answer of [mmap] is stored in the source and has
    no part in the status: the test after it compares the address of the
    [source_t] itself, which is never [MAP_FAILED], so a failed mapping is
    returned with status 0. *)
Theorem source_file_load_status (sys : Files.system) (source_address : Z)
    (src : Files.source_t) (filepath : VALUE) (path : list byte) :
  Files.StringValueCStr filepath = Return path ->
  source_address <> Files.MAP_FAILED ->
  let fd := Files.sys_open sys path in
  exists status src',
    fst (Files.source_file_load sys source_address src filepath) = Return (status, src') /\
    (status = 0 \/ status = 1) /\
    (status = 0 <-> fd <> -1 /\ Files.sys_fstat sys fd <> None) /\
    (status = 0 ->
     exists st_size,
       Files.sys_fstat sys fd = Some st_size /\
       Files.size src' = st_size /\
       Files.source src' = Files.sys_mmap sys st_size fd /\
       Files.type src' = Files.type src) /\
    (status = 1 -> src' = src).
Proof.
  intros Hpath Haddr fd. unfold Files.source_file_load. rewrite Hpath. fold fd.
  destruct (fd =? -1) eqn:Efd.
  - apply Z.eqb_eq in Efd. exists 1, src. cbn [fst].
    repeat split; auto; try lia; try discriminate.
  - apply Z.eqb_neq in Efd.
    destruct (Files.sys_fstat sys fd) as [st_size|] eqn:Estat.
    + replace (source_address =? Files.MAP_FAILED) with false
        by (symmetry; now apply Z.eqb_neq).
      eexists 0, _. cbn [fst].
      repeat split; auto; try discriminate;
        try (intros _; exists st_size; repeat split; reflexivity).
    + exists 1, src. cbn [fst].
      repeat split; auto; try lia; try discriminate;
        try (intros [_ H]; contradiction).
Qed.

Lemma source_file_load_status_witness :
  exists src',
    fst (Files.source_file_load (Files.one_file Files.MAP_FAILED) 4096
           (Files.mkSource None 0 0) (RString (list_byte_of_string "/a.rb")))
    = Return (0, src') /\
    Files.source src' = Files.MAP_FAILED /\ Files.size src' = 12.
Proof.
  destruct (source_file_load_status (Files.one_file Files.MAP_FAILED) 4096
              (Files.mkSource None 0 0) (RString (list_byte_of_string "/a.rb"))
              (list_byte_of_string "/a.rb") eq_refl ltac:(vm_compute; discriminate))
    as (status & src' & Hload & _ & Hiff & Hok & _).
  assert (Hstatus : status = 0).
  { apply Hiff. split; vm_compute; discriminate. }
  subst status. destruct (Hok eq_refl) as (st_size & Hstat & Hsize & Hsrc & _).
  vm_compute in Hstat. injection Hstat as <-.
  exists src'. repeat split; assumption.
Defined.

(** X13.  On every path of [dump_file], [lex_file] and [parse_file] the
    descriptor [open] returned is closed exactly once, and nothing else is
    closed: the closed descriptors of the trace are that descriptor when
    [open] succeeded and none when it failed or the path was rejected. *)
Theorem file_descriptor_closed_once (x_source : Files.source_t -> VALUE)
    (sys : Files.system) (source_address : Z) (local : Files.source_t)
    (filepath : VALUE) :
  Files.closed (snd (Files.file_entry x_source sys source_address local filepath)) =
  match Files.StringValueCStr filepath with
  | Return path =>
      if Files.sys_open sys path =? -1 then [] else [Files.sys_open sys path]
  | _ => []
  end.
Proof.
  unfold Files.file_entry, Files.source_file_load.
  destruct (Files.StringValueCStr filepath) as [path|cls msg|msg|]; try reflexivity.
  destruct (Files.sys_open sys path =? -1); [reflexivity|].
  destruct (Files.sys_fstat sys (Files.sys_open sys path)) as [st_size|]; [|reflexivity].
  destruct (source_address =? Files.MAP_FAILED); reflexivity.
Qed.

(** X14.  [dump_file], [lex_file] and [parse_file] return [nil] without
    running their [*_source] and without unmapping anything when [open] or
    [fstat] fails; when both succeed they return the value of their
    [*_source] on the loaded source and then unmap once, the address
    [mmap] answered with the length [fstat] gave. *)
Theorem file_entry_runs_and_unmaps (x_source : Files.source_t -> VALUE)
    (sys : Files.system) (source_address : Z) (local : Files.source_t)
    (filepath : VALUE) (path : list byte) :
  Files.StringValueCStr filepath = Return path ->
  source_address <> Files.MAP_FAILED ->
  let fd := Files.sys_open sys path in
  let run := Files.file_entry x_source sys source_address local filepath in
  (fd = -1 \/ Files.sys_fstat sys fd = None ->
   fst run = Return Qnil /\ Files.sources_run (snd run) = [] /\
   Files.unmapped (snd run) = []) /\
  (forall st_size,
      fd <> -1 -> Files.sys_fstat sys fd = Some st_size ->
      let src := Files.mkSource (Files.type local) (Files.sys_mmap sys st_size fd) st_size in
      fst run = Return (x_source src) /\
      Files.sources_run (snd run) = [src] /\
      Files.unmapped (snd run) = [(Files.sys_mmap sys st_size fd, st_size)] /\
      exists before,
        snd run = before ++ [Files.call_source src;
                             Files.call_munmap (Files.sys_mmap sys st_size fd) st_size]).
Proof.
  intros Hpath Haddr fd run. subst run.
  unfold Files.file_entry, Files.source_file_load. rewrite Hpath. fold fd.
  split.
  - intros [Hfd | Hstat].
    + rewrite Hfd. simpl. auto.
    + destruct (fd =? -1); [simpl; auto|]. rewrite Hstat. simpl. auto.
  - intros st_size Hfd Hstat. cbv zeta.
    replace (fd =? -1) with false by (symmetry; now apply Z.eqb_neq).
    rewrite Hstat.
    replace (source_address =? Files.MAP_FAILED) with false
      by (symmetry; now apply Z.eqb_neq).
    cbn. repeat split; try reflexivity.
    exists [Files.call_open path; Files.call_fstat fd; Files.call_mmap st_size fd;
            Files.call_close fd].
    reflexivity.
Qed.

Lemma file_entry_runs_and_unmaps_witness :
  fst (Files.parse_file (fun src => Integer (Files.size src)) (Files.one_file 65536) 4096
         (Files.mkSource None 0 0) (RString (list_byte_of_string "/a.rb")))
  = Return (Integer 12) /\
  fst (Files.parse_file (fun src => Integer (Files.size src)) (Files.one_file 65536) 4096
         (Files.mkSource None 0 0) (RString (list_byte_of_string "/b.rb")))
  = Return Qnil.
Proof.
  split.
  - apply (proj2 (file_entry_runs_and_unmaps (fun src => Integer (Files.size src))
                    (Files.one_file 65536) 4096 (Files.mkSource None 0 0)
                    (RString (list_byte_of_string "/a.rb")) (list_byte_of_string "/a.rb")
                    eq_refl ltac:(vm_compute; discriminate)) 12).
    + vm_compute. discriminate.
    + reflexivity.
  - apply (proj1 (file_entry_runs_and_unmaps (fun src => Integer (Files.size src))
                    (Files.one_file 65536) 4096 (Files.mkSource None 0 0)
                    (RString (list_byte_of_string "/b.rb")) (list_byte_of_string "/b.rb")
                    eq_refl ltac:(vm_compute; discriminate))).
    left. reflexivity.
Defined.

(** * Marshalling a parse *)

Lemma to_long_id (x : Z) : - 2 ^ 63 <= x < 2 ^ 63 -> to_long x = x.
Proof.
  intro H. unfold to_long, LONG_BIT. cbv zeta.
  change (2 ^ (64 - 1)) with (2 ^ 63).
  destruct (Z_lt_le_dec x 0) as [Hneg|Hpos].
  - replace (x mod 2 ^ 64) with (x + 2 ^ 64).
    + destruct (x + 2 ^ 64 <? 2 ^ 63) eqn:E; [apply Z.ltb_lt in E|]; lia.
    + apply (Z.mod_unique x (2 ^ 64) (-1) (x + 2 ^ 64)); lia.
  - rewrite Z.mod_small by lia.
    destruct (x <? 2 ^ 63) eqn:E; [reflexivity|]. apply Z.ltb_ge in E. lia.
Qed.

Lemma LONG2FIX_exact (i : Z) : Parse.FIXABLE i -> Parse.LONG2FIX i = Integer i.
Proof.
  unfold Parse.FIXABLE, Parse.LONG2FIX. intro H.
  rewrite to_long_id by lia. rewrite Z.mod_small by lia. f_equal. lia.
Qed.

Lemma comments_loop_map (comment : list Parse.yp_comment_t) :
  forall comments,
    Parse.comments_loop comment comments =
    comments ++
    map (fun c =>
           Parse.mkComment (Parse.comment_type_symbol (Parse.comment_type c))
             (Parse.mkLocation (Parse.LONG2FIX (Parse.comment_start c))
                (Parse.LONG2FIX (Parse.comment_end c))))
      comment.
Proof.
  induction comment as [|c next IH]; intro comments; simpl.
  - now rewrite app_nil_r.
  - rewrite IH. unfold rb_ary_push. now rewrite <- app_assoc.
Qed.

Lemma errors_loop_map (error : list Parse.yp_error_t) :
  forall errors,
    Parse.errors_loop error errors =
    errors ++
    map (fun e =>
           Parse.mkParseError (RString (Parse.error_message e))
             (Parse.mkLocation (Parse.LONG2FIX (Parse.error_start e))
                (Parse.LONG2FIX (Parse.error_end e))))
      error.
Proof.
  induction error as [|e next IH]; intro errors; simpl.
  - now rewrite app_nil_r.
  - rewrite IH. unfold rb_ary_push. now rewrite <- app_assoc.
Qed.

(** X15.  [parse_source] hands over every comment and every error of the
    parser, one object each and in list order; with offsets that are
    fixnums, each Location holds the offsets of its node unchanged and
    each ParseError the bytes of its message.  A comment's type is
    [:embdoc] or [:__END__] for these two types and [:inline] for every
    other, never [nil]. *)
Theorem parse_source_keeps_comments_and_errors (yp_parse : list byte -> Parse.parsed)
    (contents : list byte) :
  let parser := yp_parse contents in
  let result := Parse.parse_source yp_parse contents in
  (forall c, In c (Parse.comment_list parser) ->
             Parse.FIXABLE (Parse.comment_start c) /\ Parse.FIXABLE (Parse.comment_end c)) ->
  (forall e, In e (Parse.error_list parser) ->
             Parse.FIXABLE (Parse.error_start e) /\ Parse.FIXABLE (Parse.error_end e)) ->
  Parse.r_node result = Parse.node_value parser /\
  map Parse.c_location (Parse.r_comments result)
  = map (fun c => Parse.mkLocation (Integer (Parse.comment_start c))
                    (Integer (Parse.comment_end c)))
      (Parse.comment_list parser) /\
  map Parse.c_type (Parse.r_comments result)
  = map (fun c => match Parse.comment_type c with
                  | Parse.YP_COMMENT_EMBDOC => Symbol "embdoc"
                  | Parse.YP_COMMENT___END__ => Symbol "__END__"
                  | _ => Symbol "inline"
                  end)
      (Parse.comment_list parser) /\
  Parse.r_errors result
  = map (fun e => Parse.mkParseError (RString (Parse.error_message e))
                    (Parse.mkLocation (Integer (Parse.error_start e))
                       (Integer (Parse.error_end e))))
      (Parse.error_list parser).
Proof.
  intros parser result Hc He. subst result. unfold Parse.parse_source. fold parser.
  cbn [Parse.r_node Parse.r_comments Parse.r_errors].
  rewrite comments_loop_map, errors_loop_map. cbn [app].
  rewrite !map_map. cbn [Parse.c_location Parse.c_type].
  split; [reflexivity|]. split; [|split].
  - apply map_ext_in. intros c Hin. destruct (Hc c Hin) as [Hs Hend].
    now rewrite !LONG2FIX_exact.
  - apply map_ext. intro c. destruct (Parse.comment_type c); reflexivity.
  - apply map_ext_in. intros e Hin. destruct (He e Hin) as [Hs Hend].
    now rewrite !LONG2FIX_exact.
Qed.

Lemma parse_source_keeps_comments_and_errors_witness :
  map Parse.c_type
    (Parse.r_comments
       (Parse.parse_source
          (fun _ =>
             Parse.mkParsed Qnil
               [Parse.mkCommentNode Parse.YP_COMMENT_EMBDOC 0 12;
                Parse.mkCommentNode (Parse.YP_COMMENT_OTHER 7) 20 31]
               [Parse.mkErrorNode (list_byte_of_string "unexpected") 14 15])
          (list_byte_of_string "=begin")))
  = [Symbol "embdoc"; Symbol "inline"].
Proof.
  assert (Hc : forall c,
             In c [Parse.mkCommentNode Parse.YP_COMMENT_EMBDOC 0 12;
                   Parse.mkCommentNode (Parse.YP_COMMENT_OTHER 7) 20 31] ->
             Parse.FIXABLE (Parse.comment_start c) /\ Parse.FIXABLE (Parse.comment_end c)).
  { intros c [<-|[<-|[]]]; unfold Parse.FIXABLE; simpl; lia. }
  assert (He : forall e,
             In e [Parse.mkErrorNode (list_byte_of_string "unexpected") 14 15] ->
             Parse.FIXABLE (Parse.error_start e) /\ Parse.FIXABLE (Parse.error_end e)).
  { intros e [<-|[]]; unfold Parse.FIXABLE; simpl; lia. }
  exact (proj1 (proj2 (proj2 (parse_source_keeps_comments_and_errors
           (fun _ =>
              Parse.mkParsed Qnil
                [Parse.mkCommentNode Parse.YP_COMMENT_EMBDOC 0 12;
                 Parse.mkCommentNode (Parse.YP_COMMENT_OTHER 7) 20 31]
                [Parse.mkErrorNode (list_byte_of_string "unexpected") 14 15])
           (list_byte_of_string "=begin") Hc He)))).
Defined.

(** * Lexing *)

(** X16.  When the first [n] tokens of the lexer are not EOF and the
    next one is, [lex_source] returns, for any fuel of at least [n],
    exactly these [n] tokens in the order they were lexed: the EOF token
    is not among them and the lexer is not called again after it. *)
Theorem lex_source_tokens_before_EOF (yp_parser_t : Type)
    (yp_parser_init : list byte -> yp_parser_t)
    (yp_lex_token : yp_parser_t -> yp_parser_t)
    (current_is_EOF : yp_parser_t -> bool)
    (yp_token_new : yp_parser_t -> VALUE)
    (contents : list byte) (n fuel : nat) :
  let lexed := Lex.lexed yp_parser_t yp_parser_init yp_lex_token contents in
  (forall k, (1 <= k <= n)%nat -> current_is_EOF (lexed k) = false) ->
  current_is_EOF (lexed (S n)) = true ->
  (n <= fuel)%nat ->
  Lex.lex_source yp_parser_t yp_parser_init yp_lex_token current_is_EOF yp_token_new
    fuel contents
  = Some (map (fun k => yp_token_new (lexed k)) (seq 1 n)).
Proof.
  intros lexed Hbefore Heof Hfuel.
  assert (Hnext : forall k, yp_lex_token (lexed k) = lexed (S k)) by reflexivity.
  assert (Hfirst : yp_lex_token (yp_parser_init contents) = lexed 1%nat) by reflexivity.
  unfold Lex.lex_source. rewrite Hfirst.
  clearbody lexed. clear Hfirst.
  assert (Hgen : forall m j ary fuel,
             (forall k, (j < k <= j + m)%nat -> current_is_EOF (lexed k) = false) ->
             current_is_EOF (lexed (S (j + m))) = true ->
             (m <= fuel)%nat ->
             Lex.lex_loop yp_parser_t yp_lex_token current_is_EOF yp_token_new
               fuel (lexed (S j)) ary
             = Some (ary ++ map (fun k => yp_token_new (lexed k)) (seq (S j) m))).
  { clear Hbefore Heof Hfuel.
    induction m as [|m IH]; intros j ary fuel' Hb He Hf.
    - rewrite Nat.add_0_r in He.
      destruct fuel'; simpl; rewrite He, app_nil_r; reflexivity.
    - destruct fuel' as [|fuel']; [lia|].
      cbn [Lex.lex_loop]. rewrite (Hb (S j)) by lia.
      rewrite Hnext, (IH (S j)).
      + unfold rb_ary_push. rewrite <- app_assoc. reflexivity.
      + intros k Hk. apply Hb. lia.
      + replace (S j + m)%nat with (j + S m)%nat by lia. exact He.
      + lia. }
  rewrite (Hgen n 0%nat [] fuel); auto.
Qed.

Lemma lex_source_tokens_before_EOF_witness :
  Lex.lex_source (list byte) (fun contents => x00 :: contents) (@tl byte)
    (fun parser => match parser with [] => true | _ => false end)
    (fun parser => match parser with b :: _ => RString [b] | [] => Qnil end)
    2 (list_byte_of_string "ab")
  = Some [RString (list_byte_of_string "a"); RString (list_byte_of_string "b")].
Proof.
  apply (lex_source_tokens_before_EOF (list byte) (fun contents => x00 :: contents)
           (@tl byte)
           (fun parser => match parser with [] => true | _ => false end)
           (fun parser => match parser with b :: _ => RString [b] | [] => Qnil end)
           (list_byte_of_string "ab") 2 2).
  - intros k Hk. assert (Hcases : k = 1%nat \/ k = 2%nat) by lia.
    destruct Hcases as [-> | ->]; reflexivity.
  - reflexivity.
  - lia.
Defined.
